(** * forge/js/random.js: the default PRNG plugin (AES-128 in counter mode)
    and the [forge.random] API, as a shallow embedding.

    The file follows random.js from top to bottom: JavaScript numbers and
    binary strings, the byte buffer of [forge.util], the module-level state
    of the closure, the four plugin functions [formatKey], [formatSeed],
    [cipher] and [increment], the load-time entropy collection and the
    exported [getBytes] / [registerWorker]. *)

From Stdlib Require Import ZArith Lia List.
From stdpp Require Import gmap strings list.

Local Open Scope Z_scope.

(** ** JavaScript numbers *)

(** A JavaScript number as the plugin sees it: an integer (exact in a double
    below 2^53), or [NaN].  An array hole / [undefined] behaves like [NaN] in
    every numeric position random.js uses it ([++], the bit operators), so
    both are the one constructor. *)
Inductive num : Type :=
  | Num (z : Z)
  | NaN.

(** Two's-complement reading of the low 32 bits. *)
Definition wrap32 (z : Z) : Z := (z + 2 ^ 31) mod 2 ^ 32 - 2 ^ 31.

(** ECMAScript [ToInt32]: [NaN] becomes 0. *)
Definition ToInt32 (x : num) : Z :=
  match x with
  | Num z => wrap32 z
  | NaN => 0
  end.

(** [x << n], [x >> n], [x ^ y], [x & y] for shift counts below 32. *)
Definition js_shl (x : num) (n : Z) : num := Num (wrap32 (Z.shiftl (ToInt32 x) n)).
Definition js_shr (x : num) (n : Z) : num := Num (Z.shiftr (ToInt32 x) n).
Definition js_xor (x y : num) : num := Num (Z.lxor (ToInt32 x) (ToInt32 y)).
Definition js_and (x y : num) : num := Num (Z.land (ToInt32 x) (ToInt32 y)).

(** The double nearest to the integer [z], ties to the even mantissa:
    integers up to 2^53 in magnitude are doubles themselves; above, doubles
    are spaced by the power of two 52 places below the leading bit. *)
Definition round_double (z : Z) : Z :=
  if Z.abs z <=? 2 ^ 53 then z
  else
    let ulp := 2 ^ (Z.log2 (Z.abs z) - 52) in
    let q := Z.abs z / ulp in
    let r := Z.abs z mod ulp in
    let q' := if 2 * r <? ulp then q
              else if ulp <? 2 * r then q + 1
              else if Z.even q then q else q + 1 in
    Z.sgn z * (q' * ulp).

(** [++x] on a number: the addition of doubles, [x + 1] rounded to the
    nearest double, with no 32-bit wrap. *)
Definition js_inc (x : num) : num :=
  match x with
  | Num z => Num (round_double (z + 1))
  | NaN => NaN
  end.

(** ** Binary strings and arrays *)

(** A JavaScript string is a sequence of 16-bit code units; forge keeps one
    byte per code unit. *)
Abbreviation jsstring := (list Z).

Definition is_byte (c : Z) : Prop := 0 <= c < 256.

(** [s.charCodeAt(i)]: [NaN] past the end. *)
Definition charCodeAt (s : jsstring) (i : nat) : num :=
  match s !! i with
  | Some c => Num c
  | None => NaN
  end.

(** [String.fromCharCode(x)]: the code unit [ToUint16 x]. *)
Definition fromCharCode (x : num) : Z := ToInt32 x mod 2 ^ 16.

(** [new Array(n)]: [n] holes. *)
Definition new_Array (n : nat) : list num := replicate n NaN.

(** [a[i]] read in a numeric position. *)
Definition array_load (a : list num) (i : nat) : num :=
  match a !! i with
  | Some x => x
  | None => NaN
  end.

(** [a[i] = v]: JavaScript extends the array when [i] is past its end. *)
Definition array_store (a : list num) (i : nat) (v : num) : list num :=
  if (i <? length a)%nat then <[i := v]> a
  else a ++ replicate (i - length a) NaN ++ [v].

(** ** The byte buffer of forge.util *)

Module ByteBuffer.

(** Modelled from the spec: [forge.util.createBuffer] and the buffer's
    [getInt32], [putInt32] and [getBytes] live in util.js, which is not part
    of the sources at hand.  The buffer is a binary string with a read
    pointer; 32-bit integers are read and written most-significant byte
    first, four code units at a time, through the 32-bit bit operators. *)
Record t : Type := mk { data : jsstring; read : nat }.

(** Modelled from the spec: [forge.util.createBuffer(b)] (util.js, not in
    the sources) wraps the string [b], nothing read yet. *)
Definition createBuffer (b : jsstring) : t := {| data := b; read := 0 |}.

Definition empty : t := createBuffer [].

(** The bytes not yet consumed. *)
Definition unread (b : t) : jsstring := drop (read b) (data b).

(** Modelled from the spec: [getInt32()] (util.js, not in the sources)
    combines the next four code units, most significant first, with [<<]
    and [^], and advances the read pointer by four.  A position past the
    end reads [NaN], which the bit operators take as 0. *)
Definition getInt32 (b : t) : num * t :=
  let rval :=
    js_xor (js_xor (js_xor (js_shl (charCodeAt (data b) (read b)) 24)
                           (js_shl (charCodeAt (data b) (read b + 1)) 16))
                   (js_shl (charCodeAt (data b) (read b + 2)) 8))
           (charCodeAt (data b) (read b + 3)) in
  (rval, {| data := data b; read := read b + 4 |}).

(** Modelled from the spec: [putInt32(i)] (util.js, not in the sources)
    appends the four bytes of [i], most significant first. *)
Definition putInt32 (b : t) (i : num) : t :=
  {| data := data b ++
       [ fromCharCode (js_and (js_shr i 24) (Num 255));
         fromCharCode (js_and (js_shr i 16) (Num 255));
         fromCharCode (js_and (js_shr i 8) (Num 255));
         fromCharCode (js_and i (Num 255)) ];
     read := read b |}.

(** Modelled from the spec: [getBytes()] without a count (util.js, not in
    the sources) returns everything unread and clears the buffer. *)
Definition getBytes (b : t) : jsstring * t :=
  (unread b, empty).

End ByteBuffer.

(** ** Exceptions and the monad of the module *)

Inductive exn : Type :=
  | ConfigurationError
  | NotSeededError
  | TypeError
  | HostError (code : nat).

Inductive outcome (A : Type) : Type :=
  | Returned (a : A)
  | Thrown (e : exn).
Arguments Returned {A} a.
Arguments Thrown {A} e.

Definition loc : Type := positive.

(** ** The host environment at load time *)

(** A value as far as line 86 tells values apart: a string, or anything else
    with its [typeof] tag and its string conversion. *)
Inductive jsval : Type :=
  | VString (s : jsstring)
  | VOther (type_of : string) (to_string : jsstring).

Definition is_string (v : jsval) : bool :=
  match v with
  | VString _ => true
  | VOther _ _ => false
  end.

Definition ToString (v : jsval) : jsstring :=
  match v with
  | VString s => s
  | VOther _ s => s
  end.

(** A host object: the keys [for (key in o)] enumerates, in order, and what
    reading [o[key]] does, which is to return a value or to throw. *)
Record hostobj : Type := {
  keys : list string;
  get : string -> outcome jsval
}.

(** A method of the object [$()] returns, as lines 106 and 113 call it:
    missing (calling it is a [TypeError]), or present, and then it throws or
    returns with the handler registered. *)
Inductive jq_method : Type :=
  | NoMethod
  | Method (r : outcome unit).

Record jq_object : Type := {
  mousemove : jq_method;
  keypress : jq_method
}.

(** The global [jQuery], when there is one: a falsy value, a truthy value
    that cannot be called, or a function with what calling it does. *)
Inductive jquery_t : Type :=
  | JQFalsy
  | JQNotCallable
  | JQFunction (r : outcome jq_object).

Definition jq_truthy (jq : jquery_t) : bool :=
  match jq with
  | JQFalsy => false
  | _ => true
  end.

(** [window], as far as lines 69-74 look at it. *)
Record window_t : Type := {
  crypto_getRandomValues : bool;
  document_defined : bool
}.

Record Env : Type := {
  nodejs : bool;               (* typeof module === 'object' && module.exports *)
  window : option window_t;    (* None: typeof window === 'undefined' *)
  navigator : option hostobj;  (* None: typeof navigator === 'undefined' *)
  jQuery : option jquery_t;    (* None: typeof jQuery === 'undefined' *)
  now : Z                      (* +new Date() *)
}.

(** The event fields the listeners read. *)
Record dom_event : Type := {
  clientX : num;
  clientY : num;
  charCode : num
}.

(** ** The module closure of random.js *)

Section Random.

(** The block cipher is supplied by forge.aes: the expanded key is opaque,
    [_expandKey key decrypt] expands four key words, and
    [_updateBlock w input decrypt] is the four words the block update writes
    to [output[0..3]] for the input array [input]. *)
Variable KeySchedule : Type.
Variable _expandKey : list num -> bool -> KeySchedule.
Variable _updateBlock : KeySchedule -> list num -> bool -> num * num * num * num.

(** The generator context built by [forge.prng.create] (prng.js). *)
Variable Ctx : Type.

(** Listeners random.js installs through jQuery. *)
Inductive listener : Type :=
  | OnMouseMove
  | OnKeyPress.

(** What the closure of [initModule] owns: the arrays allocated by the plugin
    (blocks are shared by reference with the generator), the two
    module-level scratch objects, the context, and the installed listeners. *)
Record State : Type := mkState {
  heap : gmap loc (list num);
  _prng_aes_output : list num;
  _prng_aes_buffer : ByteBuffer.t;
  _ctx : Ctx;
  listeners : list listener
}.

Definition JS (A : Type) : Type := State -> outcome A * State.

Definition ret {A} (a : A) : JS A := fun s => (Returned a, s).

Definition bind {A B} (m : JS A) (k : A -> JS B) : JS B :=
  fun s =>
    match m s with
    | (Returned a, s') => k a s'
    | (Thrown e, s') => (Thrown e, s')
    end.

Definition throw {A} (e : exn) : JS A := fun s => (Thrown e, s).

(** [try { m } catch (e) { h e }]: what [m] did to the state before it threw
    stays done. *)
Definition try_catch {A} (m : JS A) (h : exn -> JS A) : JS A :=
  fun s =>
    match m s with
    | (Returned a, s') => (Returned a, s')
    | (Thrown e, s') => h e s'
    end.

Definition gets {A} (f : State -> A) : JS A := fun s => (Returned (f s), s).
Definition modify (f : State -> State) : JS unit := fun s => (Returned tt, f s).

Notation "x <- m ;; k" := (bind m (fun x => k))
  (at level 100, m at next level, right associativity).
Notation "m ;; k" := (bind m (fun _ => k))
  (at level 100, right associativity).

Definition set_heap (h : gmap loc (list num)) (s : State) : State :=
  mkState h (_prng_aes_output s) (_prng_aes_buffer s) (_ctx s) (listeners s).
Definition set_output (o : list num) (s : State) : State :=
  mkState (heap s) o (_prng_aes_buffer s) (_ctx s) (listeners s).
Definition set_buffer (b : ByteBuffer.t) (s : State) : State :=
  mkState (heap s) (_prng_aes_output s) b (_ctx s) (listeners s).
Definition set_ctx (c : Ctx) (s : State) : State :=
  mkState (heap s) (_prng_aes_output s) (_prng_aes_buffer s) c (listeners s).
Definition add_listener (l : listener) (s : State) : State :=
  mkState (heap s) (_prng_aes_output s) (_prng_aes_buffer s) (_ctx s)
          (listeners s ++ [l]).

(** A new array object. *)
Definition alloc (a : list num) : JS loc :=
  fun s =>
    let l := fresh (dom (heap s)) in
    (Returned l, set_heap (<[l := a]> (heap s)) s).

(** Reading through a reference; a reference to no array is [undefined], and
    indexing it throws. *)
Definition load (l : loc) : JS (list num) :=
  fun s =>
    match heap s !! l with
    | Some a => (Returned a, s)
    | None => (Thrown TypeError, s)
    end.

Definition store (l : loc) (a : list num) : JS unit :=
  modify (fun s => set_heap (<[l := a]> (heap s)) s).

(** The state right after lines 23-25 and 64: [new Array(4)], an empty
    buffer, the context just created. *)
Definition init_state (c : Ctx) : State :=
  mkState ∅ (new_Array 4) ByteBuffer.empty c [].

(** *** prng_aes *)

(** The four [tmp.getInt32()] reads stored into a [new Array(4)]
    (lines 28-33 and 40-45). *)
Definition read4 (bytes : jsstring) : list num :=
  let tmp := ByteBuffer.createBuffer bytes in
  let a := new_Array 4 in
  let '(w, tmp) := ByteBuffer.getInt32 tmp in
  let a := array_store a 0 w in
  let '(w, tmp) := ByteBuffer.getInt32 tmp in
  let a := array_store a 1 w in
  let '(w, tmp) := ByteBuffer.getInt32 tmp in
  let a := array_store a 2 w in
  let '(w, tmp) := ByteBuffer.getInt32 tmp in
  array_store a 3 w.

Definition formatKey (key : jsstring) : JS KeySchedule :=
  let key := read4 key in
  ret (_expandKey key false).

Definition formatSeed (seed : jsstring) : JS loc :=
  let seed := read4 seed in
  alloc seed.

Definition cipher (key : KeySchedule) (seed : loc) : JS jsstring :=
  input <- load seed ;;
  let '(o0, o1, o2, o3) := _updateBlock key input false in
  modify (fun s => set_output
    (array_store (array_store (array_store (array_store
       (_prng_aes_output s) 0 o0) 1 o1) 2 o2) 3 o3) s) ;;
  modify (fun s => set_buffer (ByteBuffer.putInt32 (_prng_aes_buffer s)
                                 (array_load (_prng_aes_output s) 0)) s) ;;
  modify (fun s => set_buffer (ByteBuffer.putInt32 (_prng_aes_buffer s)
                                 (array_load (_prng_aes_output s) 1)) s) ;;
  modify (fun s => set_buffer (ByteBuffer.putInt32 (_prng_aes_buffer s)
                                 (array_load (_prng_aes_output s) 2)) s) ;;
  modify (fun s => set_buffer (ByteBuffer.putInt32 (_prng_aes_buffer s)
                                 (array_load (_prng_aes_output s) 3)) s) ;;
  fun s =>
    let '(bytes, b) := ByteBuffer.getBytes (_prng_aes_buffer s) in
    (Returned bytes, set_buffer b s).

Definition increment (seed : loc) : JS loc :=
  a <- load seed ;;
  store seed (array_store a 3 (js_inc (array_load a 3))) ;;
  ret seed.

(** *** Load-time entropy and the exported API *)

Section Api.

(** The methods of the context random.js calls; prng.js defines them. *)
Variable Worker : Type.
Variable ctx_collect : jsstring -> JS unit.
Variable ctx_collectInt : num -> Z -> JS unit.
Variable ctx_generate : Z -> JS jsstring.
Variable ctx_registerWorker : Worker -> JS unit.

(** Line 68 and the condition of lines 69-70. *)
Definition native_entropy (env : Env) : bool :=
  nodejs env ||
  match window env with
  | Some w => crypto_getRandomValues w
  | None => false
  end.

(** The condition of line 74. *)
Definition is_worker (env : Env) : bool :=
  match window env with
  | Some w => negb (document_defined w)
  | None => true
  end.

Definition read_prop (o : hostobj) (key : string) : JS jsval :=
  fun s => (get o key, s).

(** The body of the [for ... in] loop, lines 85-97. *)
Definition nav_step (nav : hostobj) (_navBytes : jsstring) (key : string)
  : JS jsstring :=
  try_catch
    (v <- read_prop nav key ;;
     if is_string v then
       v' <- read_prop nav key ;;
       ret (_navBytes ++ ToString v')
     else ret _navBytes)
    (fun _ => ret _navBytes).

Fixpoint nav_loop (nav : hostobj) (ks : list string) (_navBytes : jsstring)
  : JS jsstring :=
  match ks with
  | [] => ret _navBytes
  | key :: ks' =>
      _navBytes' <- nav_step nav _navBytes key ;;
      nav_loop nav ks' _navBytes'
  end.

(** Lines 82-101. *)
Definition collect_navigator (env : Env) : JS unit :=
  match navigator env with
  | Some nav =>
      _navBytes <- nav_loop nav (keys nav) [] ;;
      ctx_collect _navBytes
  | None => ret tt
  end.

(** [$()]: calling what is not a function is a [TypeError]. *)
Definition jq_call (jq : jquery_t) : JS jq_object :=
  match jq with
  | JQFunction (Returned o) => ret o
  | JQFunction (Thrown e) => throw e
  | _ => throw TypeError
  end.

(** [o.mousemove(handler)] or [o.keypress(handler)]. *)
Definition jq_register (m : jq_method) (l : listener) : JS unit :=
  match m with
  | NoMethod => throw TypeError
  | Method (Returned _) => modify (add_listener l)
  | Method (Thrown e) => throw e
  end.

(** Lines 104-116, with [$] the argument of line 147 ([jQuery] when it is
    defined, [null] otherwise): the two collectors registered with
    jQuery. *)
Definition install_listeners (env : Env) : JS unit :=
  match jQuery env with
  | Some jq =>
      if jq_truthy jq then
        (o <- jq_call jq ;; jq_register (mousemove o) OnMouseMove) ;;
        (o <- jq_call jq ;; jq_register (keypress o) OnKeyPress)
      else ret tt
  | None => ret tt
  end.

Definition fire (l : listener) (e : dom_event) : JS unit :=
  match l with
  | OnMouseMove =>
      ctx_collectInt (clientX e) 16 ;;
      ctx_collectInt (clientY e) 16
  | OnKeyPress => ctx_collectInt (charCode e) 8
  end.

(** Lines 66-117 of [initModule]. *)
Definition initModule (env : Env) : JS unit :=
  if negb (native_entropy env) then
    (if is_worker env then ret tt (* FIXME: *) else ret tt) ;;
    ctx_collectInt (Num (now env)) 32 ;;
    collect_navigator env ;;
    install_listeners env
  else ret tt.

(** [forge.random.getBytes] and [forge.random.registerWorker]. *)
Definition getBytes (count : Z) : JS jsstring := ctx_generate count.

Definition registerWorker (worker : Worker) : JS unit :=
  ctx_registerWorker worker.

End Api.

End Random.

Arguments mkState {Ctx}.
Arguments heap {Ctx}.
Arguments _prng_aes_output {Ctx}.
Arguments _prng_aes_buffer {Ctx}.
Arguments _ctx {Ctx}.
Arguments listeners {Ctx}.
Arguments ret {Ctx A}.
Arguments bind {Ctx A B}.
Arguments throw {Ctx A}.
Arguments try_catch {Ctx A}.
Arguments gets {Ctx A}.
Arguments modify {Ctx}.
Arguments set_heap {Ctx}.
Arguments set_output {Ctx}.
Arguments set_buffer {Ctx}.
Arguments set_ctx {Ctx}.
Arguments add_listener {Ctx}.
Arguments alloc {Ctx}.
Arguments load {Ctx}.
Arguments store {Ctx}.
Arguments init_state {Ctx}.
Arguments formatKey {KeySchedule} _expandKey {Ctx}.
Arguments formatSeed {Ctx}.
Arguments cipher {KeySchedule} _updateBlock {Ctx}.
Arguments increment {Ctx}.
Arguments read_prop {Ctx}.
Arguments nav_step {Ctx}.
Arguments nav_loop {Ctx}.
Arguments collect_navigator {Ctx}.
Arguments jq_call {Ctx}.
Arguments jq_register {Ctx}.
Arguments install_listeners {Ctx}.
Arguments fire {Ctx}.
Arguments initModule {Ctx}.
Arguments getBytes {Ctx}.
Arguments registerWorker {Ctx Worker}.

Notation "x <- m ;; k" := (bind m (fun x => k))
  (at level 100, m at next level, right associativity).
Notation "m ;; k" := (bind m (fun _ => k))
  (at level 100, right associativity).

(** ** Reference notions the statements are written with *)

(** The 32-bit word with bytes [b0 b1 b2 b3], most significant first, as the
    signed number JavaScript's bit operators produce. *)
Definition word_be (b0 b1 b2 b3 : Z) : Z :=
  wrap32 (b0 * 2 ^ 24 + b1 * 2 ^ 16 + b2 * 2 ^ 8 + b3).

(** Consecutive 4-byte groups read as big-endian words. *)
Fixpoint be_words (bytes : jsstring) : list num :=
  match bytes with
  | b0 :: b1 :: b2 :: b3 :: rest => Num (word_be b0 b1 b2 b3) :: be_words rest
  | _ => []
  end.

(** The four bytes of the low 32 bits of [w], most significant first. *)
Definition be32 (w : Z) : jsstring :=
  [ (w / 2 ^ 24) mod 256; (w / 2 ^ 16) mod 256; (w / 2 ^ 8) mod 256; w mod 256 ].

(** A byte string read as one big-endian natural number. *)
Definition be_value (bs : jsstring) : Z :=
  fold_left (fun acc b => acc * 256 + b) bs 0.

(** The unsigned 32-bit pattern of an array slot. *)
Definition u32 (a : list num) (i : nat) : Z := ToInt32 (array_load a i) mod 2 ^ 32.

(** A 4-word block read as one 128-bit big integer, word 0 most
    significant. *)
Definition block_value (a : list num) : Z :=
  u32 a 0 * 2 ^ 96 + u32 a 1 * 2 ^ 64 + u32 a 2 * 2 ^ 32 + u32 a 3.

(** No unread byte: the read pointer stands at the end of the data. *)
Definition buffer_is_empty (b : ByteBuffer.t) : Prop :=
  ByteBuffer.read b = length (ByteBuffer.data b).

(** An input cut to 16 code units, or filled up to 16 with zeros. *)
Definition pad16 (key : jsstring) : jsstring := take 16 (key ++ replicate 16 0).

(** What one property contributes: its value when reading it succeeds and
    gives a string, nothing otherwise. *)
Definition string_of_prop (r : outcome jsval) : jsstring :=
  match r with
  | Returned (VString s) => s
  | _ => []
  end.

(** The accessible string-valued properties, concatenated in enumeration
    order. *)
Fixpoint nav_strings (nav : hostobj) (ks : list string) : jsstring :=
  match ks with
  | [] => []
  | key :: ks' => string_of_prop (get nav key) ++ nav_strings nav ks'
  end.

(** ** Stand-ins used to run the definitions on concrete inputs *)

(** A cipher that keeps the four key words as the schedule and xors them
    into the block; enough to evaluate the plugin, not AES. *)
Definition xor_expandKey (key : list num) (decrypt : bool) : list num := key.

Definition xor_updateBlock (w input : list num) (decrypt : bool)
  : num * num * num * num :=
  (js_xor (array_load w 0) (array_load input 0),
   js_xor (array_load w 1) (array_load input 1),
   js_xor (array_load w 2) (array_load input 2),
   js_xor (array_load w 3) (array_load input 3)).

(** The 5-byte key of the malformed-key scenario, and a 17-byte one. *)
Definition key5 : jsstring := [97; 98; 99; 100; 101].
Definition key17 : jsstring :=
  [1; 2; 3; 4; 5; 6; 7; 8; 9; 10; 11; 12; 13; 14; 15; 16; 17].
Definition key16 : jsstring := take 16 key17.

(** A seed whose last word is all ones, and the state in which the block
    made from it is the only array. *)
Definition carry_seed : jsstring :=
  [0; 0; 0; 0; 0; 0; 0; 0; 0; 0; 0; 0; 255; 255; 255; 255].
Definition carry_state : State unit := snd (formatSeed carry_seed (init_state tt)).

(** A schedule for the stand-in cipher. *)
Definition demo_key : list num := [Num 1; Num 2; Num 3; Num (-1)].

(** A context that only logs what is collected into it. *)
Inductive logged : Type :=
  | Collected (bytes : jsstring)
  | CollectedInt (value : num) (bits : Z).

Definition log_collect (bytes : jsstring) : JS (list logged) unit :=
  modify (fun s => set_ctx (_ctx s ++ [Collected bytes]) s).

Definition log_collectInt (value : num) (bits : Z) : JS (list logged) unit :=
  modify (fun s => set_ctx (_ctx s ++ [CollectedInt value bits]) s).

Definition log_state : State (list logged) := init_state [].

(** A navigator whose [geolocation] throws when touched. *)
Definition demo_navigator : hostobj :=
  {| keys := ["appName"; "geolocation"; "onLine"; "platform"]%string;
     get := fun k =>
       if String.eqb k "appName" then Returned (VString [78; 101])
       else if String.eqb k "geolocation" then Thrown (HostError 1)
       else if String.eqb k "onLine" then Returned (VOther "boolean" [116])
       else if String.eqb k "platform" then Returned (VString [88])
       else Returned (VOther "undefined" []) |}.

Definition demo_env : Env :=
  {| nodejs := false;
     window := Some {| crypto_getRandomValues := false; document_defined := true |};
     navigator := Some demo_navigator;
     jQuery := Some (JQFunction (Returned
       {| mousemove := Method (Returned tt); keypress := Method (Returned tt) |}));
     now := 1357000000000 |}.

(** ** Runs of plugin calls *)

Section PluginRuns.

Context {KeySchedule Ctx : Type}.
Variable _expandKey : list num -> bool -> KeySchedule.
Variable _updateBlock : KeySchedule -> list num -> bool -> num * num * num * num.

(** The four entry points of [prng_aes], as the generator may call them in
    any order, and what each call gives back. *)
Inductive plugin_call : Type :=
  | CallFormatKey (key : jsstring)
  | CallFormatSeed (seed : jsstring)
  | CallCipher (key : KeySchedule) (seed : loc)
  | CallIncrement (seed : loc).

Inductive plugin_result : Type :=
  | GotKey (k : outcome KeySchedule)
  | GotBlock (l : outcome loc)
  | GotBytes (b : outcome jsstring).

Definition plugin_step (c : plugin_call) (s : State Ctx)
  : plugin_result * State Ctx :=
  match c with
  | CallFormatKey key =>
      let '(r, s') := formatKey _expandKey key s in (GotKey r, s')
  | CallFormatSeed seed =>
      let '(r, s') := formatSeed seed s in (GotBlock r, s')
  | CallCipher key seed =>
      let '(r, s') := cipher _updateBlock key seed s in (GotBytes r, s')
  | CallIncrement seed =>
      let '(r, s') := increment seed s in (GotBlock r, s')
  end.

Fixpoint plugin_run (cs : list plugin_call) (s : State Ctx)
  : list plugin_result * State Ctx :=
  match cs with
  | [] => ([], s)
  | c :: cs' =>
      let '(r, s') := plugin_step c s in
      let '(rs, s'') := plugin_run cs' s' in
      (r :: rs, s'')
  end.

(** [increment] called [n] times in a row, each call on the reference the
    previous one returned. *)
Fixpoint increments (n : nat) (seed : loc) : JS Ctx loc :=
  match n with
  | O => ret seed
  | S n' => seed' <- increment seed ;; increments n' seed'
  end.

End PluginRuns.

Arguments plugin_call : clear implicits.
Arguments plugin_result : clear implicits.

(** What the module keeps true of its two scratch objects between calls:
    the output array has its four slots and the shared buffer is cleared. *)
Definition scratch_ok {Ctx} (s : State Ctx) : Prop :=
  length (_prng_aes_output s) = 4%nat
  /\ _prng_aes_buffer s = ByteBuffer.empty.

(** A result of [cipher] that is a full block: 16 bytes. *)
Definition full_block {KeySchedule} (r : plugin_result KeySchedule) : Prop :=
  match r with
  | GotBytes (Returned b) => length b = 16%nat /\ Forall is_byte b
  | _ => True
  end.

(** The words of an array as the 32-bit bit operators read them. *)
Definition int32s (a : list num) : list num := map (fun x => Num (ToInt32 x)) a.


(** The 16 bytes [cipher] makes of four output words. *)
Definition words_bytes (o : num * num * num * num) : jsstring :=
  let '(o0, o1, o2, o3) := o in
  be32 (ToInt32 o0) ++ be32 (ToInt32 o1) ++ be32 (ToInt32 o2) ++ be32 (ToInt32 o3).

(** ** The module wrapper (lines 151-190) *)

Section Wrapper.

(** What [forge[name]] holds is of no concern to the wrapper. *)
Variable Api : Type.

(** The [forge] object as the wrapper uses it: the [defined] table, absent
    until a module creates it, and the members by name. *)
Record Forge : Type := mkForge {
  defined : option (gset string);
  members : gmap string Api
}.

Definition name : string := "random".
Definition deps : list string := ["./aes"; "./md"; "./prng"; "./util"]%string.

(** [{}] *)
Definition empty_forge : Forge := mkForge None ∅.

(** [forge.defined || {}] *)
Definition defined_or_empty (forge : Forge) : gset string :=
  match defined forge with
  | Some d => d
  | None => ∅
  end.

(** The function assigned to [module.exports] (lines 173-188): [require]
    gives the initialiser of a dependency, [initModule] is this module's;
    the object is changed in place, so the result is the value returned
    together with the object as it is left. *)
Definition module_exports (require : string -> Forge -> Forge)
    (initModule : Forge -> Forge) (forge : option Forge)
  : option Api * Forge :=
  let mods := map require deps ++ [initModule] in
  let forge := match forge with Some f => f | None => empty_forge end in
  let forge := mkForge (Some (defined_or_empty forge)) (members forge) in
  if decide (name ∈ defined_or_empty forge) then
    (members forge !! name, forge)
  else
    let forge := mkForge (Some ({[name]} ∪ defined_or_empty forge))
                         (members forge) in
    let forge := fold_left (fun f init => init f) mods forge in
    (members forge !! name, forge).

(** An initialiser that leaves this module's entry in [forge.defined]. *)
Definition keeps_defined (init : Forge -> Forge) : Prop :=
  forall f, name ∈ defined_or_empty f -> name ∈ defined_or_empty (init f).

End Wrapper.

Arguments mkForge {Api}.
Arguments defined {Api}.
Arguments members {Api}.
Arguments empty_forge {Api}.
Arguments defined_or_empty {Api}.
Arguments module_exports {Api}.
Arguments keeps_defined {Api}.

(** A dependency initialiser that registers itself the way this wrapper
    does, for running the wrapper on a concrete object. *)
Definition demo_require (dep : string) (f : Forge Z) : Forge Z :=
  mkForge (Some ({[dep]} ∪ defined_or_empty f)) (members f).

Definition demo_initModule (f : Forge Z) : Forge Z :=
  mkForge (defined f) (<[name := 1]> (members f)).

(** A block whose counter word has reached 2^53. *)
Definition stopped_state : State unit :=
  set_heap {[1%positive := [Num 0; Num 0; Num 0; Num (2 ^ 53)]]} (init_state tt).

(** A block with a hole where word 3 should be. *)
Definition short_state : State unit :=
  set_heap {[1%positive := [Num 5; Num 6]]} (init_state tt).

(** * Properties *)

(** ** 32-bit arithmetic of the bit operators *)

Lemma wrap32_range z : - 2 ^ 31 <= wrap32 z < 2 ^ 31.
Proof. unfold wrap32. pose proof (Z.mod_pos_bound (z + 2 ^ 31) (2 ^ 32)). lia. Qed.

Lemma wrap32_small z : - 2 ^ 31 <= z < 2 ^ 31 -> wrap32 z = z.
Proof. intros H. unfold wrap32. rewrite Z.mod_small; lia. Qed.

Lemma wrap32_idem z : wrap32 (wrap32 z) = wrap32 z.
Proof. apply wrap32_small, wrap32_range. Qed.

Lemma wrap32_mod z : wrap32 z mod 2 ^ 32 = z mod 2 ^ 32.
Proof.
  assert (E : wrap32 z = z + (- ((z + 2 ^ 31) / 2 ^ 32)) * 2 ^ 32).
  { unfold wrap32. pose proof (Z.div_mod (z + 2 ^ 31) (2 ^ 32)). lia. }
  rewrite E. apply Z.mod_add. lia.
Qed.

Lemma wrap32_testbit z n :
  0 <= n -> Z.testbit (wrap32 z) n = Z.testbit z (Z.min n 31).
Proof.
  intros Hn.
  destruct (Z.lt_ge_cases n 32) as [Hlt | Hge].
  - rewrite Z.min_l by lia.
    rewrite <- (Z.mod_pow2_bits_low (wrap32 z) 32 n) by lia.
    rewrite wrap32_mod. apply Z.mod_pow2_bits_low. lia.
  - rewrite Z.min_r by lia.
    rewrite <- (Z.mod_pow2_bits_low z 32 31) by lia.
    rewrite <- wrap32_mod.
    rewrite Z.mod_pow2_bits_low by lia.
    pose proof (wrap32_range z) as R.
    destruct (Z.lt_ge_cases (wrap32 z) 0) as [Hneg | Hpos].
    + assert (E : wrap32 z = Z.lnot (- wrap32 z - 1)) by (unfold Z.lnot; lia).
      rewrite E, !Z.lnot_spec by lia.
      rewrite !(Z.bits_above_log2 (- wrap32 z - 1)); try reflexivity; try lia.
      * destruct (Z.eq_dec (- wrap32 z - 1) 0) as [-> | ?]; [simpl; lia|].
        apply Z.log2_lt_pow2; lia.
      * destruct (Z.eq_dec (- wrap32 z - 1) 0) as [-> | ?]; [simpl; lia|].
        apply Z.log2_lt_pow2; [lia|]. 
        apply Z.lt_le_trans with (2 ^ 31); [lia|].
        apply Z.pow_le_mono_r; lia.
    + rewrite !Z.bits_above_log2; try reflexivity; try lia.
      * destruct (Z.eq_dec (wrap32 z) 0) as [-> | ?]; [simpl; lia|].
        apply Z.log2_lt_pow2; lia.
      * destruct (Z.eq_dec (wrap32 z) 0) as [-> | ?]; [simpl; lia|].
        apply Z.log2_lt_pow2; [lia|].
        apply Z.lt_le_trans with (2 ^ 31); [lia|].
        apply Z.pow_le_mono_r; lia.
Qed.

Lemma wrap32_lxor a b : wrap32 (Z.lxor a b) = Z.lxor (wrap32 a) (wrap32 b).
Proof.
  apply Z.bits_inj'. intros n Hn.
  rewrite Z.lxor_spec, !wrap32_testbit, Z.lxor_spec by lia. reflexivity.
Qed.

Lemma lxor_shift_add hi lo k :
  0 <= k -> 0 <= lo < 2 ^ k -> Z.lxor (hi * 2 ^ k) lo = hi * 2 ^ k + lo.
Proof.
  intros Hk Hlo. symmetry. apply Z.add_nocarry_lxor.
  apply Z.bits_inj'. intros n Hn.
  rewrite Z.land_spec, Z.bits_0.
  destruct (Z.lt_ge_cases n k).
  - rewrite Z.mul_pow2_bits_low by lia. reflexivity.
  - rewrite <- (Z.mod_small lo (2 ^ k)) by lia.
    rewrite Z.mod_pow2_bits_high by lia. apply andb_false_r.
Qed.

Lemma xor_bytes_be b0 b1 b2 b3 :
  is_byte b0 -> is_byte b1 -> is_byte b2 -> is_byte b3 ->
  Z.lxor (Z.lxor (Z.lxor (Z.shiftl b0 24) (Z.shiftl b1 16)) (Z.shiftl b2 8)) b3
  = b0 * 2 ^ 24 + b1 * 2 ^ 16 + b2 * 2 ^ 8 + b3.
Proof.
  unfold is_byte. intros H0 H1 H2 H3.
  rewrite !Z.shiftl_mul_pow2 by lia.
  rewrite (lxor_shift_add b0 (b1 * 2 ^ 16) 24) by lia.
  replace (b0 * 2 ^ 24 + b1 * 2 ^ 16) with ((b0 * 2 ^ 8 + b1) * 2 ^ 16) by lia.
  rewrite (lxor_shift_add _ (b2 * 2 ^ 8) 16) by lia.
  replace ((b0 * 2 ^ 8 + b1) * 2 ^ 16 + b2 * 2 ^ 8)
    with ((b0 * 2 ^ 16 + b1 * 2 ^ 8 + b2) * 2 ^ 8) by lia.
  rewrite (lxor_shift_add _ b3 8) by lia.
  lia.
Qed.

Lemma int32_of_bytes b0 b1 b2 b3 :
  is_byte b0 -> is_byte b1 -> is_byte b2 -> is_byte b3 ->
  js_xor (js_xor (js_xor (js_shl (Num b0) 24) (js_shl (Num b1) 16))
                 (js_shl (Num b2) 8)) (Num b3)
  = Num (word_be b0 b1 b2 b3).
Proof.
  intros H0 H1 H2 H3.
  unfold js_xor, js_shl, word_be; cbn [ToInt32]. f_equal.
  rewrite <- xor_bytes_be by assumption.
  repeat (rewrite wrap32_lxor || rewrite wrap32_idem).
  unfold is_byte in *.
  rewrite (wrap32_small b0), (wrap32_small b1), (wrap32_small b2) by lia.
  reflexivity.
Qed.

Lemma wrap32_mod256 z : wrap32 z mod 256 = z mod 256.
Proof.
  assert (E : wrap32 z = z + (- ((z + 2 ^ 31) / 2 ^ 32) * 2 ^ 24) * 256).
  { unfold wrap32. pose proof (Z.div_mod (z + 2 ^ 31) (2 ^ 32)). lia. }
  rewrite E. apply Z.mod_add. lia.
Qed.

Lemma land_255 z : Z.land z 255 = z mod 256.
Proof. change 255 with (Z.ones 8). rewrite Z.land_ones by lia. reflexivity. Qed.

Lemma byte_of_shift (i : num) n :
  0 <= n ->
  fromCharCode (js_and (js_shr i n) (Num 255)) = (ToInt32 i / 2 ^ n) mod 256.
Proof.
  intros Hn. unfold fromCharCode, js_and, js_shr; cbn [ToInt32].
  change (wrap32 255) with 255.
  rewrite land_255, wrap32_mod256, Z.shiftr_div_pow2 by lia.
  pose proof (Z.mod_pos_bound (ToInt32 i / 2 ^ n) 256).
  rewrite wrap32_small by lia. apply Z.mod_small. lia.
Qed.

Lemma byte_of_low (i : num) :
  fromCharCode (js_and i (Num 255)) = ToInt32 i mod 256.
Proof.
  unfold fromCharCode, js_and; cbn [ToInt32].
  change (wrap32 255) with 255. rewrite land_255.
  pose proof (Z.mod_pos_bound (ToInt32 i) 256).
  rewrite wrap32_small by lia. apply Z.mod_small. lia.
Qed.

Lemma putInt32_be32 (b : ByteBuffer.t) (i : num) :
  ByteBuffer.putInt32 b i
  = {| ByteBuffer.data := ByteBuffer.data b ++ be32 (ToInt32 i);
       ByteBuffer.read := ByteBuffer.read b |}.
Proof.
  unfold ByteBuffer.putInt32, be32.
  rewrite !byte_of_shift, byte_of_low by lia. reflexivity.
Qed.

Lemma be32_bytes w : Forall is_byte (be32 w).
Proof.
  unfold be32, is_byte.
  repeat constructor; apply Z.mod_pos_bound; lia.
Qed.

Lemma be32_value w : be_value (be32 w) = w mod 2 ^ 32.
Proof.
  unfold be_value, be32; cbn [fold_left].
  pose proof (Z.div_mod w (2 ^ 32)).
  pose proof (Z.mod_pos_bound w (2 ^ 32)).
  set (m := w mod 2 ^ 32) in *.
  assert (E : forall k, 0 <= k -> 8 + k <= 32 -> (w / 2 ^ k) mod 256 = (m / 2 ^ k) mod 256).
  { intros k Hk1 Hk2.
    replace w with (m + (w / 2 ^ 32) * 2 ^ (32 - k) * 2 ^ k).
    2:{ rewrite <- Z.mul_assoc, <- Z.pow_add_r by lia.
        replace (32 - k + k) with 32 by lia. lia. }
    rewrite Z.div_add by (apply Z.pow_nonzero; lia).
    replace (2 ^ (32 - k)) with (2 ^ (24 - k) * 256).
    2:{ change 256 with (2 ^ 8). rewrite <- Z.pow_add_r by lia. f_equal. lia. }
    rewrite Z.mul_assoc. apply Z.mod_add. lia. }
  rewrite (E 24), (E 16), (E 8) by lia.
  replace (w mod 256) with (m mod 256).
  2:{ pose proof (E 0) as E0. rewrite !Z.pow_0_r, !Z.div_1_r in E0. symmetry. apply E0; lia. }
  clearbody m. clear E H.
  pose proof (Z.div_mod m 256). 
  pose proof (Z.div_mod (m / 2 ^ 8) 256).
  pose proof (Z.div_mod (m / 2 ^ 16) 256).
  assert (m / 2 ^ 8 / 256 = m / 2 ^ 16) by (rewrite Z.div_div by lia; reflexivity).
  assert (m / 2 ^ 16 / 256 = m / 2 ^ 24) by (rewrite Z.div_div by lia; reflexivity).
  assert (0 <= m / 2 ^ 24 < 256).
  { split; [apply Z.div_pos; lia | apply Z.div_lt_upper_bound; lia]. }
  rewrite (Z.mod_small (m / 2 ^ 24) 256) by lia.
  change (2 ^ 8) with 256 in *.
  lia.
Qed.

(** ** Arrays *)

Lemma array_load_store_eq a i v : array_load (array_store a i v) i = v.
Proof.
  unfold array_load, array_store.
  destruct (Nat.ltb_spec i (length a)) as [Hlt | Hge].
  - rewrite list_lookup_insert_eq by lia. reflexivity.
  - rewrite lookup_app_r by lia.
    rewrite lookup_app_r by (rewrite length_replicate; lia).
    rewrite length_replicate.
    replace (i - length a - (i - length a))%nat with 0%nat by lia.
    reflexivity.
Qed.

Lemma array_load_store_ne a i j v :
  i <> j -> array_load (array_store a i v) j = array_load a j.
Proof.
  intros Hne. unfold array_load, array_store.
  destruct (Nat.ltb_spec i (length a)) as [Hlt | Hge].
  - rewrite list_lookup_insert_ne by lia. reflexivity.
  - destruct (Nat.lt_ge_cases j (length a)) as [Hj | Hj].
    + rewrite lookup_app_l by lia. reflexivity.
    + rewrite (lookup_ge_None_2 a j) by lia.
      rewrite lookup_app_r by lia.
      destruct (Nat.lt_ge_cases (j - length a) (i - length a)) as [Hk | Hk].
      * rewrite lookup_app_l by (rewrite length_replicate; lia).
        rewrite lookup_replicate_2 by lia. reflexivity.
      * rewrite lookup_app_r by (rewrite length_replicate; lia).
        rewrite length_replicate.
        rewrite lookup_ge_None_2; [reflexivity|]. simpl. lia.
Qed.

(** ** Reading four words *)

(** [read4] looks at its input only through [ToInt32] of the first sixteen
    code units. *)
Lemma read4_ext (s1 s2 : jsstring) :
  (forall i, (i < 16)%nat ->
     ToInt32 (charCodeAt s1 i) = ToInt32 (charCodeAt s2 i)) ->
  read4 s1 = read4 s2.
Proof.
  intros H.
  unfold read4, ByteBuffer.getInt32, ByteBuffer.createBuffer, js_xor, js_shl.
  cbn [ByteBuffer.data ByteBuffer.read Nat.add new_Array replicate
       array_store length Nat.ltb Nat.leb list_insert insert].
  rewrite !(H 0%nat), !(H 1%nat), !(H 2%nat), !(H 3%nat), !(H 4%nat),
    !(H 5%nat), !(H 6%nat), !(H 7%nat), !(H 8%nat), !(H 9%nat),
    !(H 10%nat), !(H 11%nat), !(H 12%nat), !(H 13%nat), !(H 14%nat),
    !(H 15%nat) by lia.
  reflexivity.
Qed.

Lemma charCodeAt_take (s : jsstring) n i :
  (i < n)%nat -> charCodeAt (take n s) i = charCodeAt s i.
Proof. intros Hi. unfold charCodeAt. rewrite lookup_take_lt by lia. reflexivity. Qed.

Lemma read4_take (s : jsstring) : read4 (take 16 s) = read4 s.
Proof. apply read4_ext. intros i Hi. rewrite charCodeAt_take by lia. reflexivity. Qed.

Lemma read4_pad16 (s : jsstring) : read4 (pad16 s) = read4 s.
Proof.
  apply read4_ext. intros i Hi. unfold pad16.
  rewrite charCodeAt_take by lia. unfold charCodeAt.
  destruct (Nat.lt_ge_cases i (length s)) as [Hlt | Hge].
  - rewrite lookup_app_l by lia. reflexivity.
  - rewrite lookup_app_r by lia.
    rewrite lookup_replicate_2 by lia.
    rewrite (lookup_ge_None_2 s i) by lia. reflexivity.
Qed.

Lemma length_pad16 (s : jsstring) : length (pad16 s) = 16%nat.
Proof.
  unfold pad16. rewrite length_take, length_app, length_replicate. lia.
Qed.

Lemma pad16_long (s : jsstring) : (16 <= length s)%nat -> pad16 s = take 16 s.
Proof. intros H. unfold pad16. rewrite take_app_le by lia. reflexivity. Qed.

Lemma pad16_short (s : jsstring) :
  (length s <= 16)%nat -> pad16 s = s ++ replicate (16 - length s) 0.
Proof.
  intros H. unfold pad16. rewrite take_app_ge by lia.
  rewrite take_replicate. f_equal. f_equal. lia.
Qed.

Lemma read4_bytes (s : jsstring) :
  length s = 16%nat -> Forall is_byte s -> read4 s = be_words s.
Proof.
  intros Hlen Hb.
  do 16 (destruct s as [| ? s]; [discriminate Hlen |]).
  destruct s; [| discriminate Hlen].
  repeat match goal with
         | H : Forall _ (_ :: _) |- _ => apply Forall_cons in H; destruct H
         end.
  unfold read4, ByteBuffer.getInt32, ByteBuffer.createBuffer.
  cbn [ByteBuffer.data ByteBuffer.read Nat.add new_Array replicate
       array_store length Nat.ltb Nat.leb list_insert insert
       charCodeAt lookup list_lookup be_words].
  rewrite !int32_of_bytes by assumption.
  reflexivity.
Qed.

(** ** The plugin: formatKey and formatSeed *)

Section PluginFormat.

Context {KeySchedule Ctx : Type}.
Variable _expandKey : list num -> bool -> KeySchedule.

(** C5.  For every 16-byte input, [formatKey] reads four 32-bit words in
    big-endian order and returns the key schedule [_expandKey] makes of
    them with the decrypt flag off, leaving the module state as it was. *)
Theorem formatKey_big_endian_encrypt (key : jsstring) (s : State Ctx) :
  length key = 16%nat ->
  Forall is_byte key ->
  formatKey _expandKey key s = (Returned (_expandKey (be_words key) false), s)
  /\ length (be_words key) = 4%nat.
Proof.
  intros Hlen Hb. split.
  - unfold formatKey, ret. rewrite read4_bytes by assumption. reflexivity.
  - do 16 (destruct key as [| ? key]; [discriminate Hlen |]).
    destruct key; [reflexivity | discriminate Hlen].
Qed.

(** C6.  For every 16-byte input, [formatSeed] returns a new array holding
    the four big-endian words of the consecutive 4-byte groups. *)
Theorem formatSeed_big_endian_words (seed : jsstring) (s : State Ctx) :
  length seed = 16%nat ->
  Forall is_byte seed ->
  exists l : loc,
    formatSeed seed s
      = (Returned l, set_heap (<[l := be_words seed]> (heap s)) s)
    /\ heap s !! l = None
    /\ length (be_words seed) = 4%nat.
Proof.
  intros Hlen Hb.
  exists (fresh (dom (heap s))). split; [| split].
  - unfold formatSeed, alloc. rewrite read4_bytes by assumption. reflexivity.
  - apply not_elem_of_dom, is_fresh.
  - do 16 (destruct seed as [| ? seed]; [discriminate Hlen |]).
    destruct seed; [reflexivity | discriminate Hlen].
Qed.

(** C9.  Two inputs of at least 16 bytes that agree on their first 16 bytes
    give the same result in [formatKey] and in [formatSeed]; neither
    rejects the longer input: [formatKey] returns the schedule and
    [formatSeed] a new array, both made from the first 16 bytes alone. *)
Theorem format_ignores_trailing_bytes (k1 k2 : jsstring) (s : State Ctx) :
  (16 <= length k1)%nat ->
  (16 <= length k2)%nat ->
  take 16 k1 = take 16 k2 ->
  formatKey _expandKey k1 s = formatKey _expandKey k2 s
  /\ formatSeed k1 s = formatSeed k2 s
  /\ formatKey _expandKey k1 s
       = (Returned (_expandKey (read4 (take 16 k1)) false), s)
  /\ formatSeed k1 s = formatSeed (take 16 k1) s
  /\ (exists l : loc,
        formatSeed k1 s
          = (Returned l, set_heap (<[l := read4 (take 16 k1)]> (heap s)) s)
        /\ heap s !! l = None).
Proof.
  intros _ _ Heq.
  assert (E : read4 k1 = read4 k2).
  { rewrite <- (read4_take k1), <- (read4_take k2), Heq. reflexivity. }
  unfold formatKey, formatSeed, ret.
  rewrite read4_take, <- E.
  split; [reflexivity |]. split; [reflexivity |]. split; [reflexivity |].
  split; [reflexivity |].
  exists (fresh (dom (heap s))). split; [reflexivity |].
  apply not_elem_of_dom, is_fresh.
Qed.

(** C1, as the code has it.  [formatKey] checks no length and never throws:
    an input of any length is cut to its first 16 code units or filled up
    with zeros, and the schedule of the four words of that string is
    returned; for bytes these are its big-endian words. *)
Theorem formatKey_never_rejects (key : jsstring) (s : State Ctx) :
  formatKey _expandKey key s
    = (Returned (_expandKey (read4 (pad16 key)) false), s)
  /\ length (pad16 key) = 16%nat
  /\ ((16 <= length key)%nat -> pad16 key = take 16 key)
  /\ ((length key <= 16)%nat ->
      pad16 key = key ++ replicate (16 - length key) 0)
  /\ (Forall is_byte key -> read4 (pad16 key) = be_words (pad16 key)).
Proof.
  split; [| split; [| split; [| split]]].
  - unfold formatKey, ret. rewrite read4_pad16. reflexivity.
  - apply length_pad16.
  - apply pad16_long.
  - apply pad16_short.
  - intros Hb. apply read4_bytes; [apply length_pad16 |].
    unfold pad16. apply Forall_take, Forall_app. split; [assumption |].
    apply Forall_replicate. unfold is_byte. lia.
Qed.

End PluginFormat.

Lemma key16_bytes : Forall is_byte key16.
Proof. unfold key16, key17, is_byte. cbn. repeat constructor; lia. Qed.

Lemma formatKey_big_endian_encrypt_witness :
  formatKey xor_expandKey key16 (init_state tt)
    = (Returned (xor_expandKey (be_words key16) false), init_state tt)
  /\ length (be_words key16) = 4%nat.
Proof.
  apply (formatKey_big_endian_encrypt xor_expandKey key16 (init_state tt)).
  - reflexivity.
  - apply key16_bytes.
Defined.

Lemma formatSeed_big_endian_words_witness :
  exists l : loc,
    formatSeed key16 (init_state tt)
      = (Returned l, set_heap (<[l := be_words key16]> (heap (init_state tt)))
                              (init_state tt))
    /\ heap (init_state tt) !! l = None
    /\ length (be_words key16) = 4%nat.
Proof.
  apply (formatSeed_big_endian_words key16 (init_state tt)).
  - reflexivity.
  - apply key16_bytes.
Defined.

Lemma format_ignores_trailing_bytes_witness :
  formatKey xor_expandKey key17 (init_state tt)
    = formatKey xor_expandKey key16 (init_state tt)
  /\ formatSeed key17 (init_state tt) = formatSeed key16 (init_state tt)
  /\ formatKey xor_expandKey key17 (init_state tt)
       = (Returned (xor_expandKey (read4 (take 16 key17)) false), init_state tt)
  /\ formatSeed key17 (init_state tt) = formatSeed (take 16 key17) (init_state tt)
  /\ (exists l : loc,
        formatSeed key17 (init_state tt)
          = (Returned l,
             set_heap (<[l := read4 (take 16 key17)]> (heap (init_state tt)))
                      (init_state tt))
        /\ heap (init_state tt) !! l = None).
Proof.
  apply (format_ignores_trailing_bytes xor_expandKey key17 key16 (init_state tt)).
  - simpl. lia.
  - simpl. lia.
  - reflexivity.
Defined.

(** C1, refuted.  Neither the 5-byte key of the malformed-key scenario nor a
    17-byte key makes [formatKey] throw: the first is filled up with zeros,
    the second loses its last byte, and a schedule is returned. *)
Lemma formatKey_accepts_wrong_length :
  length key5 <> 16%nat
  /\ formatKey xor_expandKey key5 (init_state tt)
       = (Returned [Num 1633837924; Num 1694498816; Num 0; Num 0], init_state tt)
  /\ length key17 <> 16%nat
  /\ formatKey xor_expandKey key17 (init_state tt)
       = (Returned [Num 16909060; Num 84281096; Num 151653132; Num 219025168],
          init_state tt)
  /\ fst (formatKey xor_expandKey key5 (init_state tt))
       <> Thrown ConfigurationError
  /\ fst (formatKey xor_expandKey key17 (init_state tt))
       <> Thrown ConfigurationError.
Proof.
  repeat split; try (simpl; lia); try reflexivity; discriminate.
Qed.

(** ** The plugin: cipher and increment *)

Section PluginCipher.

Context {KeySchedule Ctx : Type}.
Variable _updateBlock : KeySchedule -> list num -> bool -> num * num * num * num.

(** What [cipher] does, in one equation: the bytes returned are the unread
    part of the shared buffer followed by the four output words, and the
    buffer ends up cleared. *)
Lemma cipher_spec (key : KeySchedule) (seed : loc) (input : list num)
    (s : State Ctx) (o0 o1 o2 o3 : num) :
  heap s !! seed = Some input ->
  _updateBlock key input false = (o0, o1, o2, o3) ->
  cipher _updateBlock key seed s
  = (Returned
       (drop (ByteBuffer.read (_prng_aes_buffer s))
          (ByteBuffer.data (_prng_aes_buffer s)
             ++ be32 (ToInt32 o0) ++ be32 (ToInt32 o1)
             ++ be32 (ToInt32 o2) ++ be32 (ToInt32 o3))),
     set_buffer ByteBuffer.empty
       (set_output
          (array_store (array_store (array_store (array_store
             (_prng_aes_output s) 0 o0) 1 o1) 2 o2) 3 o3) s)).
Proof.
  intros Hseed Hout.
  unfold cipher, bind, load, modify. rewrite Hseed, Hout.
  cbn [set_output set_buffer _prng_aes_output _prng_aes_buffer heap _ctx
       listeners ByteBuffer.getBytes ByteBuffer.unread].
  rewrite !putInt32_be32.
  cbn [ByteBuffer.data ByteBuffer.read].
  rewrite array_load_store_eq.
  rewrite (array_load_store_ne _ 3 2), array_load_store_eq by lia.
  rewrite (array_load_store_ne _ 3 1), (array_load_store_ne _ 2 1),
    array_load_store_eq by lia.
  rewrite (array_load_store_ne _ 3 0), (array_load_store_ne _ 2 0),
    (array_load_store_ne _ 1 0), array_load_store_eq by lia.
  rewrite <- !app_assoc. reflexivity.
Qed.

(** C3.  [cipher] is deterministic in its inputs: two calls with the same
    key and the same block contents, made in module states that agree on
    the shared buffer, return the same bytes, whatever else the states hold;
    they leave the buffer in the same (cleared) condition and the arrays
    untouched, so that later calls agree as well. *)
Theorem cipher_deterministic (key : KeySchedule) (seed1 seed2 : loc)
    (input : list num) (s1 s2 : State Ctx) :
  heap s1 !! seed1 = Some input ->
  heap s2 !! seed2 = Some input ->
  _prng_aes_buffer s1 = _prng_aes_buffer s2 ->
  fst (cipher _updateBlock key seed1 s1) = fst (cipher _updateBlock key seed2 s2)
  /\ _prng_aes_buffer (snd (cipher _updateBlock key seed1 s1))
       = _prng_aes_buffer (snd (cipher _updateBlock key seed2 s2))
  /\ heap (snd (cipher _updateBlock key seed1 s1)) = heap s1
  /\ heap (snd (cipher _updateBlock key seed2 s2)) = heap s2.
Proof.
  intros H1 H2 Hbuf.
  destruct (_updateBlock key input false) as [[[o0 o1] o2] o3] eqn:Hout.
  rewrite (cipher_spec key seed1 input s1 o0 o1 o2 o3 H1 Hout).
  rewrite (cipher_spec key seed2 input s2 o0 o1 o2 o3 H2 Hout).
  cbn [fst snd set_buffer set_output _prng_aes_buffer heap].
  rewrite Hbuf. repeat split; reflexivity.
Qed.

(** C10.  Called with the shared buffer empty, [cipher] returns exactly the
    16 bytes that serialise the four output words of the block update, most
    significant byte first, and leaves the buffer empty. *)
Theorem cipher_empty_buffer (key : KeySchedule) (seed : loc)
    (input : list num) (s : State Ctx) (o0 o1 o2 o3 : num) :
  heap s !! seed = Some input ->
  buffer_is_empty (_prng_aes_buffer s) ->
  _updateBlock key input false = (o0, o1, o2, o3) ->
  let bytes := be32 (ToInt32 o0) ++ be32 (ToInt32 o1)
               ++ be32 (ToInt32 o2) ++ be32 (ToInt32 o3) in
  fst (cipher _updateBlock key seed s) = Returned bytes
  /\ _prng_aes_buffer (snd (cipher _updateBlock key seed s)) = ByteBuffer.empty
  /\ buffer_is_empty (_prng_aes_buffer (snd (cipher _updateBlock key seed s)))
  /\ length bytes = 16%nat
  /\ Forall is_byte bytes
  /\ Forall (fun o => be_value (be32 (ToInt32 o)) = ToInt32 o mod 2 ^ 32)
            [o0; o1; o2; o3].
Proof.
  intros Hseed Hempty Hout bytes.
  rewrite (cipher_spec key seed input s o0 o1 o2 o3 Hseed Hout).
  cbn [fst snd set_buffer _prng_aes_buffer].
  unfold buffer_is_empty in Hempty.
  repeat split.
  - rewrite Hempty, drop_app_length. reflexivity.
  - subst bytes. rewrite !Forall_app. repeat split; apply be32_bytes.
  - repeat constructor; apply be32_value.
Qed.

(** Integers up to 2^53 in magnitude are doubles: adding one to a number
    from -2^53 up to 2^53 - 1 is exact. *)
Lemma round_double_exact (z : Z) : Z.abs z <= 2 ^ 53 -> round_double z = z.
Proof.
  intros H. unfold round_double.
  destruct (Z.leb_spec (Z.abs z) (2 ^ 53)); [reflexivity | lia].
Qed.

Lemma js_inc_exact (w : Z) :
  - 2 ^ 53 <= w < 2 ^ 53 -> js_inc (Num w) = Num (w + 1).
Proof.
  intros H. cbn [js_inc]. rewrite round_double_exact by lia. reflexivity.
Qed.

(** What [increment] does to a block of four numbers, in one equation. *)
Lemma increment_spec (seed : loc) (s : State Ctx) (w0 w1 w2 w3 : Z) :
  heap s !! seed = Some [Num w0; Num w1; Num w2; Num w3] ->
  increment seed s
    = (Returned seed,
       set_heap (<[seed := [Num w0; Num w1; Num w2; js_inc (Num w3)]]> (heap s)) s).
Proof.
  intros Hseed.
  unfold increment, bind, load, store, modify, ret. rewrite Hseed. reflexivity.
Qed.

Lemma increment_spec_exact (seed : loc) (s : State Ctx) (w0 w1 w2 w3 : Z) :
  heap s !! seed = Some [Num w0; Num w1; Num w2; Num w3] ->
  - 2 ^ 53 <= w3 < 2 ^ 53 ->
  increment seed s
    = (Returned seed,
       set_heap (<[seed := [Num w0; Num w1; Num w2; Num (w3 + 1)]]> (heap s)) s).
Proof.
  intros Hseed Hw. rewrite (increment_spec seed s w0 w1 w2 w3 Hseed).
  rewrite js_inc_exact by exact Hw. reflexivity.
Qed.

(** C8.  On a block of four numbers, [increment] returns the reference it
    was given; the array behind it has word 3 replaced by the JavaScript sum
    [b[3] + 1] and words 0, 1, 2 as before, and nothing else in the module
    state changes.  The sum is [b[3] + 1] exactly for every word from -2^53
    up to 2^53 - 1, which covers every 32-bit word. *)
Theorem increment_frame (seed : loc) (s : State Ctx) (w0 w1 w2 w3 : Z) :
  heap s !! seed = Some [Num w0; Num w1; Num w2; Num w3] ->
  increment seed s
    = (Returned seed,
       set_heap (<[seed := [Num w0; Num w1; Num w2; js_inc (Num w3)]]> (heap s)) s)
  /\ (- 2 ^ 53 <= w3 < 2 ^ 53 ->
      increment seed s
        = (Returned seed,
           set_heap (<[seed := [Num w0; Num w1; Num w2; Num (w3 + 1)]]> (heap s)) s))
  /\ (forall l, l <> seed ->
        heap (snd (increment seed s)) !! l = heap s !! l)
  /\ _prng_aes_output (snd (increment seed s)) = _prng_aes_output s
  /\ _prng_aes_buffer (snd (increment seed s)) = _prng_aes_buffer s
  /\ _ctx (snd (increment seed s)) = _ctx s.
Proof.
  intros Hseed.
  pose proof (increment_spec seed s w0 w1 w2 w3 Hseed) as E.
  split; [exact E |].
  split; [apply increment_spec_exact; exact Hseed |].
  rewrite E. cbn [snd set_heap heap _prng_aes_output _prng_aes_buffer _ctx].
  split; [| repeat split].
  intros l Hl. apply lookup_insert_ne. congruence.
Qed.

(** C2, as the code has it.  For a last word the doubles count exactly
    (from -2^53 up to 2^53 - 1, which covers every 32-bit word),
    [increment] adds one to the last word alone: read as a 128-bit integer,
    the block keeps its upper 96 bits and its low 32 bits advance modulo
    2^32; it is the successor exactly when the low word is not all ones. *)
Theorem increment_low_word_only (seed : loc) (s : State Ctx) (w0 w1 w2 w3 : Z) :
  heap s !! seed = Some [Num w0; Num w1; Num w2; Num w3] ->
  - 2 ^ 53 <= w3 < 2 ^ 53 ->
  exists a' : list num,
    fst (increment seed s) = Returned seed
    /\ heap (snd (increment seed s)) !! seed = Some a'
    /\ block_value a'
       = 2 ^ 32 * (block_value [Num w0; Num w1; Num w2; Num w3] / 2 ^ 32)
         + (block_value [Num w0; Num w1; Num w2; Num w3] + 1) mod 2 ^ 32
    /\ (u32 [Num w0; Num w1; Num w2; Num w3] 3 < 2 ^ 32 - 1 ->
        block_value a' = block_value [Num w0; Num w1; Num w2; Num w3] + 1)
    /\ (u32 [Num w0; Num w1; Num w2; Num w3] 3 = 2 ^ 32 - 1 ->
        block_value a' = block_value [Num w0; Num w1; Num w2; Num w3] - (2 ^ 32 - 1)).
Proof.
  intros Hseed Hw.
  exists [Num w0; Num w1; Num w2; Num (w3 + 1)].
  rewrite (increment_spec_exact seed s w0 w1 w2 w3 Hseed Hw).
  cbn [fst snd set_heap heap].
  split; [reflexivity |]. split; [apply lookup_insert_eq |].
  unfold block_value, u32, array_load.
  cbn [lookup list_lookup ToInt32].
  rewrite !wrap32_mod.
  pose proof (Z.mod_pos_bound w0 (2 ^ 32)).
  pose proof (Z.mod_pos_bound w1 (2 ^ 32)).
  pose proof (Z.mod_pos_bound w2 (2 ^ 32)).
  pose proof (Z.mod_pos_bound w3 (2 ^ 32)).
  set (u0 := w0 mod 2 ^ 32) in *. set (u1 := w1 mod 2 ^ 32) in *.
  set (u2 := w2 mod 2 ^ 32) in *. set (u3 := w3 mod 2 ^ 32) in *.
  assert (E3 : (w3 + 1) mod 2 ^ 32 = (u3 + 1) mod 2 ^ 32).
  { subst u3. rewrite Zplus_mod_idemp_l. reflexivity. }
  rewrite E3.
  set (hi := u0 * 2 ^ 64 + u1 * 2 ^ 32 + u2).
  assert (Ev : u0 * 2 ^ 96 + u1 * 2 ^ 64 + u2 * 2 ^ 32 + u3 = hi * 2 ^ 32 + u3)
    by (subst hi; lia).
  rewrite Ev.
  assert (Ed : (hi * 2 ^ 32 + u3) / 2 ^ 32 = hi).
  { rewrite Z.add_comm, Z.div_add by lia. rewrite Z.div_small by lia. lia. }
  assert (Em : (hi * 2 ^ 32 + u3 + 1) mod 2 ^ 32 = (u3 + 1) mod 2 ^ 32).
  { replace (hi * 2 ^ 32 + u3 + 1) with (u3 + 1 + hi * 2 ^ 32) by lia.
    apply Z.mod_add. lia. }
  rewrite Ed, Em.
  assert (Ev' : u0 * 2 ^ 96 + u1 * 2 ^ 64 + u2 * 2 ^ 32 + (u3 + 1) mod 2 ^ 32
                = hi * 2 ^ 32 + (u3 + 1) mod 2 ^ 32) by (subst hi; lia).
  rewrite Ev'.
  split; [lia |]. split.
  - intros Hlt. rewrite Z.mod_small by lia. lia.
  - intros Heq. rewrite Heq. change ((2 ^ 32 - 1 + 1) mod 2 ^ 32) with 0. lia.
Qed.

End PluginCipher.

Lemma carry_state_block :
  heap carry_state !! 1%positive = Some [Num 0; Num 0; Num 0; Num (-1)].
Proof. vm_compute. reflexivity. Qed.

Lemma cipher_deterministic_witness :
  fst (cipher xor_updateBlock demo_key 1%positive carry_state)
    = fst (cipher xor_updateBlock demo_key 1%positive
             (set_output [Num 7] carry_state))
  /\ _prng_aes_buffer (snd (cipher xor_updateBlock demo_key 1%positive carry_state))
     = _prng_aes_buffer (snd (cipher xor_updateBlock demo_key 1%positive
                                (set_output [Num 7] carry_state)))
  /\ heap (snd (cipher xor_updateBlock demo_key 1%positive carry_state))
     = heap carry_state
  /\ heap (snd (cipher xor_updateBlock demo_key 1%positive
                  (set_output [Num 7] carry_state)))
     = heap (set_output [Num 7] carry_state).
Proof.
  apply (cipher_deterministic xor_updateBlock demo_key 1%positive 1%positive
           [Num 0; Num 0; Num 0; Num (-1)] carry_state
           (set_output [Num 7] carry_state)).
  - exact carry_state_block.
  - exact carry_state_block.
  - reflexivity.
Defined.

Lemma cipher_empty_buffer_witness :
  fst (cipher xor_updateBlock demo_key 1%positive carry_state)
    = Returned [0; 0; 0; 1; 0; 0; 0; 2; 0; 0; 0; 3; 0; 0; 0; 0]
  /\ buffer_is_empty
       (_prng_aes_buffer (snd (cipher xor_updateBlock demo_key 1%positive carry_state))).
Proof.
  pose proof (cipher_empty_buffer xor_updateBlock demo_key 1%positive
                [Num 0; Num 0; Num 0; Num (-1)] carry_state
                (Num 1) (Num 2) (Num 3) (Num 0)) as H.
  destruct H as (Hbytes & _ & Hempty & _).
  - exact carry_state_block.
  - reflexivity.
  - reflexivity.
  - split; [exact Hbytes | exact Hempty].
Defined.

Lemma increment_frame_witness :
  increment 1%positive carry_state
    = (Returned 1%positive,
       set_heap (<[1%positive := [Num 0; Num 0; Num 0; Num (-1 + 1)]]>
                   (heap carry_state)) carry_state)
  /\ (forall l, l <> 1%positive ->
        heap (snd (increment 1%positive carry_state)) !! l = heap carry_state !! l).
Proof.
  destruct (increment_frame 1%positive carry_state 0 0 0 (-1))
    as (_ & Heq & Hframe & _).
  - exact carry_state_block.
  - split; [apply Heq; lia | exact Hframe].
Defined.

Lemma increment_low_word_only_witness :
  exists a' : list num,
    fst (increment 1%positive carry_state) = Returned 1%positive
    /\ heap (snd (increment 1%positive carry_state)) !! 1%positive = Some a'
    /\ block_value a' = 0.
Proof.
  destruct (increment_low_word_only 1%positive carry_state 0 0 0 (-1))
    as (a' & Hret & Hheap & Hval & _).
  - exact carry_state_block.
  - lia.
  - exists a'. split; [exact Hret |]. split; [exact Hheap |].
    rewrite Hval. reflexivity.
Defined.

(** C2, refuted.  The block made from a seed whose last word is all ones
    reads as 2^32 - 1; after [increment] its last word is 0 and the third
    word is still 0, so the block reads as 0 and not as 2^32. *)
Lemma increment_no_carry :
  formatSeed carry_seed (init_state tt) = (Returned 1%positive, carry_state)
  /\ heap carry_state !! 1%positive = Some [Num 0; Num 0; Num 0; Num (-1)]
  /\ fst (increment 1%positive carry_state) = Returned 1%positive
  /\ heap (snd (increment 1%positive carry_state)) !! 1%positive
       = Some [Num 0; Num 0; Num 0; Num 0]
  /\ block_value [Num 0; Num 0; Num 0; Num (-1)] = 2 ^ 32 - 1
  /\ block_value [Num 0; Num 0; Num 0; Num 0] = 0
  /\ block_value [Num 0; Num 0; Num 0; Num 0]
       <> (block_value [Num 0; Num 0; Num 0; Num (-1)] + 1) mod 2 ^ 128.
Proof.
  repeat split; try (vm_compute; reflexivity).
  vm_compute. discriminate.
Qed.

(** ** Load-time entropy and the exported API *)

Section ApiProperties.

Context {Ctx : Type}.
Variable ctx_collect : jsstring -> JS Ctx unit.
Variable ctx_collectInt : num -> Z -> JS Ctx unit.

(** One turn of the loop never throws and adds the property's value exactly
    when reading it succeeds and gives a string. *)
Lemma nav_step_spec (nav : hostobj) (acc : jsstring) (key : string)
    (s : State Ctx) :
  nav_step nav acc key s = (Returned (acc ++ string_of_prop (get nav key)), s).
Proof.
  unfold nav_step, try_catch, bind, read_prop, ret.
  destruct (get nav key) as [[str | ty str] | e]; cbn;
    rewrite ?app_nil_r; reflexivity.
Qed.

Lemma nav_loop_spec (nav : hostobj) (ks : list string) (acc : jsstring)
    (s : State Ctx) :
  nav_loop nav ks acc s = (Returned (acc ++ nav_strings nav ks), s).
Proof.
  revert acc. induction ks as [| key ks IH]; intros acc; cbn [nav_loop nav_strings].
  - unfold ret. rewrite app_nil_r. reflexivity.
  - unfold bind. rewrite nav_step_spec, IH, <- app_assoc. reflexivity.
Qed.

Lemma bind_ext {A B} (m : JS Ctx A) (k1 k2 : A -> JS Ctx B) (s : State Ctx) :
  (forall a s', k1 a s' = k2 a s') -> bind m k1 s = bind m k2 s.
Proof.
  intros H. unfold bind. destruct (m s) as [[a | e] s']; [apply H | reflexivity].
Qed.

(** What [initModule] does when it takes the weak-entropy branch. *)
Lemma initModule_weak_path (env : Env) (s : State Ctx) :
  native_entropy env = false ->
  initModule ctx_collect ctx_collectInt env s
  = (ctx_collectInt (Num (now env)) 32 ;;
     collect_navigator ctx_collect env ;;
     install_listeners env) s.
Proof.
  intros Hweak. unfold initModule. rewrite Hweak. cbn [negb].
  destruct (is_worker env); reflexivity.
Qed.


(** C7.  Probing the navigator never aborts: a property whose read throws
    leaves the collected string as it was, the loop returns the
    concatenation of all accessible string-valued properties, and that
    string is what [collect] receives. *)
Theorem navigator_probe_swallows_exceptions (env : Env) (nav : hostobj)
    (s : State Ctx) :
  native_entropy env = false ->
  navigator env = Some nav ->
  nav_loop nav (keys nav) [] s = (Returned (nav_strings nav (keys nav)), s)
  /\ (forall key acc e s',
        get nav key = Thrown e ->
        nav_step (Ctx := Ctx) nav acc key s' = (Returned acc, s'))
  /\ collect_navigator ctx_collect env s
       = ctx_collect (nav_strings nav (keys nav)) s
  /\ initModule ctx_collect ctx_collectInt env s
       = (ctx_collectInt (Num (now env)) 32 ;;
          ctx_collect (nav_strings nav (keys nav)) ;;
          install_listeners env) s.
Proof.
  intros Hweak Hnav.
  assert (Hcollect : forall s', collect_navigator ctx_collect env s'
                                = ctx_collect (nav_strings nav (keys nav)) s').
  { intros s'. unfold collect_navigator. rewrite Hnav.
    unfold bind. rewrite nav_loop_spec. reflexivity. }
  split; [apply (nav_loop_spec nav (keys nav) []) |].
  split.
  { intros key acc e s' Hthrow.
    rewrite nav_step_spec, Hthrow. cbn. rewrite app_nil_r. reflexivity. }
  split; [apply Hcollect |].
  rewrite initModule_weak_path by assumption.
  apply bind_ext. intros _ s1.
  unfold bind. rewrite Hcollect. reflexivity.
Qed.

End ApiProperties.

Lemma navigator_probe_swallows_exceptions_witness :
  nav_loop demo_navigator (keys demo_navigator) [] log_state
    = (Returned [78; 101; 88], log_state)
  /\ _ctx (snd (initModule log_collect log_collectInt demo_env log_state))
     = [CollectedInt (Num 1357000000000) 32; Collected [78; 101; 88]].
Proof.
  destruct (navigator_probe_swallows_exceptions log_collect log_collectInt
              demo_env demo_navigator log_state)
    as (Hloop & _ & _ & Hinit).
  - reflexivity.
  - reflexivity.
  - split; [exact Hloop |]. rewrite Hinit. reflexivity.
Defined.


(** * Further properties of the module *)

(** ** Words and bytes, both ways *)

Lemma wrap32_of_mod z : wrap32 (z mod 2 ^ 32) = wrap32 z.
Proof. unfold wrap32. rewrite Zplus_mod_idemp_l. reflexivity. Qed.

Lemma wrap32_eq_iff a b : wrap32 a = wrap32 b <-> a mod 2 ^ 32 = b mod 2 ^ 32.
Proof.
  split; intros H.
  - rewrite <- (wrap32_mod a), <- (wrap32_mod b), H. reflexivity.
  - rewrite <- (wrap32_of_mod a), <- (wrap32_of_mod b), H. reflexivity.
Qed.

Lemma word_be_value b0 b1 b2 b3 :
  word_be b0 b1 b2 b3 = wrap32 (be_value [b0; b1; b2; b3]).
Proof. unfold word_be, be_value; cbn [fold_left]. f_equal. lia. Qed.

(** Reading back the four bytes [putInt32] wrote gives the word, as a
    signed 32-bit number. *)
Lemma word_be_be32 w :
  word_be ((w / 2 ^ 24) mod 256) ((w / 2 ^ 16) mod 256)
          ((w / 2 ^ 8) mod 256) (w mod 256) = wrap32 w.
Proof.
  rewrite word_be_value.
  change [(w / 2 ^ 24) mod 256; (w / 2 ^ 16) mod 256; (w / 2 ^ 8) mod 256; w mod 256]
    with (be32 w).
  rewrite be32_value. apply wrap32_of_mod.
Qed.

(** Writing out the word read from four bytes gives the bytes back. *)
Lemma be32_word_be b0 b1 b2 b3 :
  is_byte b0 -> is_byte b1 -> is_byte b2 -> is_byte b3 ->
  be32 (word_be b0 b1 b2 b3) = [b0; b1; b2; b3].
Proof.
  unfold is_byte. intros H0 H1 H2 H3.
  unfold be32, word_be, wrap32.
  change (2 ^ 24) with 16777216. change (2 ^ 16) with 65536.
  change (2 ^ 8) with 256. change (2 ^ 31) with 2147483648.
  change (2 ^ 32) with 4294967296.
  repeat f_equal; Z.to_euclidean_division_equations; lia.
Qed.

Lemma ToInt32_range x : - 2 ^ 31 <= ToInt32 x < 2 ^ 31.
Proof. destruct x; cbn [ToInt32]; [apply wrap32_range | lia]. Qed.

Lemma wrap32_ToInt32 x : wrap32 (ToInt32 x) = ToInt32 x.
Proof. apply wrap32_small, ToInt32_range. Qed.

Lemma read4_be32 (o0 o1 o2 o3 : num) :
  read4 (be32 (ToInt32 o0) ++ be32 (ToInt32 o1)
         ++ be32 (ToInt32 o2) ++ be32 (ToInt32 o3))
  = int32s [o0; o1; o2; o3].
Proof.
  rewrite read4_bytes.
  - unfold be32; cbn [app be_words int32s map].
    rewrite !word_be_be32, !wrap32_ToInt32. reflexivity.
  - reflexivity.
  - rewrite !Forall_app. repeat split; apply be32_bytes.
Qed.

Lemma be_words_serialise (s : jsstring) :
  length s = 16%nat -> Forall is_byte s ->
  flat_map (fun w => be32 (ToInt32 w)) (be_words s) = s.
Proof.
  intros Hlen Hb.
  do 16 (destruct s as [| ? s]; [discriminate Hlen |]).
  destruct s; [| discriminate Hlen].
  repeat match goal with
         | H : Forall _ (_ :: _) |- _ => apply Forall_cons in H; destruct H
         end.
  cbn [be_words flat_map ToInt32].
  unfold word_be. rewrite !wrap32_idem.
  fold (word_be z z0 z1 z2). fold (word_be z3 z4 z5 z6).
  fold (word_be z7 z8 z9 z10). fold (word_be z11 z12 z13 z14).
  rewrite !be32_word_be by assumption. reflexivity.
Qed.

(** The words of [read4] are always numbers in the signed 32-bit range. *)
Lemma read4_int32 (s : jsstring) :
  length (read4 s) = 4%nat
  /\ Forall (fun x => exists z, x = Num z /\ - 2 ^ 31 <= z < 2 ^ 31) (read4 s).
Proof.
  unfold read4, ByteBuffer.getInt32, ByteBuffer.createBuffer, js_xor.
  cbn [ByteBuffer.data ByteBuffer.read Nat.add new_Array replicate
       array_store length Nat.ltb Nat.leb list_insert insert fst snd].
  split; [reflexivity |].
  assert (X : forall (a : num) (x : num),
             - 2 ^ 31 <= Z.lxor (ToInt32 a) (ToInt32 x) < 2 ^ 31).
  { intros a x. rewrite <- (wrap32_ToInt32 a), <- (wrap32_ToInt32 x), <- wrap32_lxor.
    apply wrap32_range. }
  repeat (apply Forall_cons; split; [eexists; split; [reflexivity | apply X] |]).
  apply Forall_nil. exact I.
Qed.

(** ** The plugin functions together *)

Section PluginTogether.

Context {KeySchedule Ctx : Type}.
Variable _expandKey : list num -> bool -> KeySchedule.
Variable _updateBlock : KeySchedule -> list num -> bool -> num * num * num * num.

(** X1.  The bytes [cipher] returns, formatted again by [formatSeed] or
    [formatKey], are the four words the block update produced, as signed
    32-bit numbers: the new block is a new array holding them, the block
    that was enciphered is left as it was, and the key schedule is the one
    expanded from them. *)
Theorem cipher_then_format (key : KeySchedule) (seed : loc)
    (input : list num) (s : State Ctx) (o0 o1 o2 o3 : num) :
  heap s !! seed = Some input ->
  buffer_is_empty (_prng_aes_buffer s) ->
  _updateBlock key input false = (o0, o1, o2, o3) ->
  exists (bytes : jsstring) (s1 : State Ctx) (l : loc),
    cipher _updateBlock key seed s = (Returned bytes, s1)
    /\ formatSeed bytes s1
       = (Returned l, set_heap (<[l := int32s [o0; o1; o2; o3]]> (heap s1)) s1)
    /\ l <> seed
    /\ heap (snd (formatSeed bytes s1)) !! seed = Some input
    /\ formatKey _expandKey bytes s1
       = (Returned (_expandKey (int32s [o0; o1; o2; o3]) false), s1).
Proof.
  intros Hseed Hempty Hout.
  pose proof (cipher_spec _updateBlock key seed input s o0 o1 o2 o3 Hseed Hout) as E.
  unfold buffer_is_empty in Hempty.
  rewrite Hempty, drop_app_length in E.
  eexists _, _, (fresh (dom (heap s))).
  split; [exact E |].
  assert (Hfresh : heap s !! fresh (dom (heap s)) = None)
    by apply not_elem_of_dom, is_fresh.
  unfold formatSeed, formatKey, alloc, ret. rewrite read4_be32.
  cbn [set_buffer set_output heap snd set_heap].
  split; [reflexivity |].
  split; [intros Heq; rewrite Heq in Hfresh; congruence |].
  split; [| reflexivity].
  rewrite lookup_insert_ne; [exact Hseed |].
  intros Heq. rewrite Heq in Hfresh. congruence.
Qed.

Lemma length_array_store (a : list num) (i : nat) (v : num) :
  length (array_store a i v) = Nat.max (length a) (S i).
Proof.
  unfold array_store. destruct (Nat.ltb_spec i (length a)).
  - rewrite length_insert. lia.
  - rewrite !length_app, length_replicate. cbn [length]. lia.
Qed.

(** One call keeps the scratch objects in order, and a block it returns is
    full. *)
Lemma scratch_ok_step (c : plugin_call KeySchedule) (s : State Ctx) :
  scratch_ok s ->
  scratch_ok (snd (plugin_step _expandKey _updateBlock c s))
  /\ full_block (fst (plugin_step _expandKey _updateBlock c s)).
Proof.
  intros [Hlen Hbuf]. destruct c as [k | sd | k sd | sd]; cbn [plugin_step].
  - unfold formatKey, ret. cbn. repeat split; assumption.
  - unfold formatSeed, alloc. cbn. repeat split; assumption.
  - destruct (heap s !! sd) as [input |] eqn:Hheap.
    + destruct (_updateBlock k input false) as [[[o0 o1] o2] o3] eqn:Hout.
      rewrite (cipher_spec _updateBlock k sd input s o0 o1 o2 o3 Hheap Hout).
      rewrite Hbuf. unfold scratch_ok. cbn [fst snd set_buffer set_output _prng_aes_output
                         _prng_aes_buffer full_block ByteBuffer.empty
                         ByteBuffer.createBuffer ByteBuffer.read ByteBuffer.data
                         drop app].
      split; [split; [| reflexivity] | split; [reflexivity |]].
      * rewrite !length_array_store. lia.
      * rewrite drop_0, !Forall_app. repeat split; apply be32_bytes.
    + unfold cipher, bind, load. rewrite Hheap. cbn.
      repeat split; assumption.
  - unfold increment, bind, load, store, modify, ret.
    destruct (heap s !! sd); cbn; repeat split; assumption.
Qed.

Lemma scratch_ok_run (cs : list (plugin_call KeySchedule)) (s : State Ctx) :
  scratch_ok s ->
  scratch_ok (snd (plugin_run _expandKey _updateBlock cs s))
  /\ Forall full_block (fst (plugin_run _expandKey _updateBlock cs s)).
Proof.
  revert s. induction cs as [| c cs IH]; intros s Hok; cbn [plugin_run].
  - split; [exact Hok | constructor].
  - destruct (scratch_ok_step c s Hok) as [Hok1 Hfull].
    destruct (plugin_step _expandKey _updateBlock c s) as [r s1].
    cbn [fst snd] in Hok1, Hfull.
    destruct (IH s1 Hok1) as [Hok2 Hall].
    destruct (plugin_run _expandKey _updateBlock cs s1) as [rs s2].
    cbn [fst snd] in *. split; [exact Hok2 |]. constructor; assumption.
Qed.

(** X2.  From module load on, whatever plugin functions are called in
    whatever order and with whatever arguments, the shared buffer is empty
    and the output array has four slots after every call; so every call of
    [cipher] that returns gives exactly 16 bytes. *)
Theorem plugin_runs_keep_scratch (c : Ctx) (cs : list (plugin_call KeySchedule)) :
  scratch_ok (snd (plugin_run _expandKey _updateBlock cs (init_state c)))
  /\ Forall full_block (fst (plugin_run _expandKey _updateBlock cs (init_state c))).
Proof.
  apply scratch_ok_run. split; reflexivity.
Qed.

End PluginTogether.

(** ** The counter *)

Section Counter.

Context {Ctx : Type}.

(** [increment] touches no array but the one it is given, and none of the
    other parts of the module state, whether it returns or throws. *)
Lemma increment_elsewhere (seed : loc) (s : State Ctx) :
  (forall l, l <> seed -> heap (snd (increment seed s)) !! l = heap s !! l)
  /\ _prng_aes_output (snd (increment seed s)) = _prng_aes_output s
  /\ _prng_aes_buffer (snd (increment seed s)) = _prng_aes_buffer s
  /\ _ctx (snd (increment seed s)) = _ctx s
  /\ listeners (snd (increment seed s)) = listeners s.
Proof.
  unfold increment, bind, load, store, modify, ret.
  destruct (heap s !! seed) as [a |]; cbn; repeat split; try reflexivity.
  intros l Hl. apply lookup_insert_ne. congruence.
Qed.

(** The block after [n] calls, as long as the doubles count exactly. *)
Lemma increments_block (n : nat) (seed : loc) (s : State Ctx) (w0 w1 w2 w3 : Z) :
  heap s !! seed = Some [Num w0; Num w1; Num w2; Num w3] ->
  - 2 ^ 53 <= w3 ->
  w3 + Z.of_nat n <= 2 ^ 53 ->
  fst (increments n seed s) = Returned seed
  /\ heap (snd (increments n seed s)) !! seed
     = Some [Num w0; Num w1; Num w2; Num (w3 + Z.of_nat n)]
  /\ (forall l, l <> seed -> heap (snd (increments n seed s)) !! l = heap s !! l).
Proof.
  revert s w3. induction n as [| n IH]; intros s w3 Hseed Hlo Hhi.
  - cbn [increments]. unfold ret. cbn [fst snd].
    rewrite Z.add_0_r. split; [reflexivity |]. split; [exact Hseed |].
    intros l _. reflexivity.
  - cbn [increments]. unfold bind.
    rewrite (increment_spec_exact seed s w0 w1 w2 w3 Hseed) by lia.
    set (s1 := set_heap _ s).
    assert (H1 : heap s1 !! seed = Some [Num w0; Num w1; Num w2; Num (w3 + 1)])
      by apply lookup_insert_eq.
    destruct (IH s1 (w3 + 1) H1) as (Hret & Hblock & Hother); [lia | lia |].
    split; [exact Hret |]. split.
    + replace (w3 + Z.of_nat (S n)) with (w3 + 1 + Z.of_nat n) by lia. exact Hblock.
    + intros l Hl. rewrite Hother by assumption.
      subst s1. cbn [set_heap heap]. apply lookup_insert_ne. congruence.
Qed.

(** X3.  [n] calls of [increment] on a block of four numbers, each on the
    reference returned by the one before, raise word 3 by [n] and nothing
    else, as long as word 3 stays within the range the doubles count
    exactly (from -2^53 up to 2^53): the reference, words 0 to 2 and every
    other array stay. *)
Theorem increments_add (n : nat) (seed : loc) (s : State Ctx) (w0 w1 w2 w3 : Z) :
  heap s !! seed = Some [Num w0; Num w1; Num w2; Num w3] ->
  - 2 ^ 53 <= w3 ->
  w3 + Z.of_nat n <= 2 ^ 53 ->
  fst (increments n seed s) = Returned seed
  /\ heap (snd (increments n seed s)) !! seed
     = Some [Num w0; Num w1; Num w2; Num (w3 + Z.of_nat n)]
  /\ (forall l, l <> seed -> heap (snd (increments n seed s)) !! l = heap s !! l).
Proof. intros Hseed Hlo Hhi. apply increments_block; assumption. Qed.

(** X4.  As the 32-bit operators of the cipher read it, the counter has
    period exactly 2^32 as long as word 3 stays within the range the
    doubles count exactly: the blocks after [i] and after [j] calls of
    [increment] look the same if and only if [i] and [j] differ by a
    multiple of 2^32. *)
Theorem counter_period (i j : nat) (seed : loc) (s : State Ctx) (w0 w1 w2 w3 : Z) :
  heap s !! seed = Some [Num w0; Num w1; Num w2; Num w3] ->
  - 2 ^ 53 <= w3 ->
  w3 + Z.of_nat i <= 2 ^ 53 ->
  w3 + Z.of_nat j <= 2 ^ 53 ->
  (int32s <$> heap (snd (increments i seed s)) !! seed
   = int32s <$> heap (snd (increments j seed s)) !! seed)
  <-> (Z.of_nat i - Z.of_nat j) mod 2 ^ 32 = 0.
Proof.
  intros Hseed Hlo Hi' Hj'.
  destruct (increments_block i seed s w0 w1 w2 w3 Hseed Hlo Hi') as (_ & Hi & _).
  destruct (increments_block j seed s w0 w1 w2 w3 Hseed Hlo Hj') as (_ & Hj & _).
  rewrite Hi, Hj. cbn [fmap option_fmap option_map int32s map ToInt32].
  rewrite <- Z.cong_iff_0.
  split.
  - intros H. injection H as H. apply wrap32_eq_iff in H.
    apply Z.cong_iff_0. apply Z.cong_iff_0 in H.
    replace (Z.of_nat i - Z.of_nat j) with (w3 + Z.of_nat i - (w3 + Z.of_nat j)) by lia.
    exact H.
  - intros H. assert (E : wrap32 (w3 + Z.of_nat i) = wrap32 (w3 + Z.of_nat j)); [| rewrite E; reflexivity]. apply wrap32_eq_iff.
    apply Z.cong_iff_0. apply Z.cong_iff_0 in H.
    replace (w3 + Z.of_nat i - (w3 + Z.of_nat j)) with (Z.of_nat i - Z.of_nat j) by lia.
    exact H.
Qed.

(** X12.  At 2^53 the counter stops: the double sum 2^53 + 1 is 2^53
    again, so on a block whose word 3 is 2^53 any number of calls of
    [increment] returns the reference and leaves the block as it is. *)
Theorem counter_stops (n : nat) (seed : loc) (s : State Ctx) (w0 w1 w2 : Z) :
  heap s !! seed = Some [Num w0; Num w1; Num w2; Num (2 ^ 53)] ->
  fst (increments n seed s) = Returned seed
  /\ heap (snd (increments n seed s)) !! seed
     = Some [Num w0; Num w1; Num w2; Num (2 ^ 53)]
  /\ (forall l, l <> seed -> heap (snd (increments n seed s)) !! l = heap s !! l).
Proof.
  revert s. induction n as [| n IH]; intros s Hseed.
  - cbn [increments]. unfold ret. cbn [fst snd].
    split; [reflexivity |]. split; [exact Hseed |]. intros l _. reflexivity.
  - cbn [increments]. unfold bind.
    rewrite (increment_spec seed s w0 w1 w2 (2 ^ 53) Hseed).
    change (js_inc (Num (2 ^ 53))) with (Num (2 ^ 53)).
    set (s1 := set_heap _ s).
    assert (H1 : heap s1 !! seed = Some [Num w0; Num w1; Num w2; Num (2 ^ 53)])
      by apply lookup_insert_eq.
    destruct (IH s1 H1) as (Hret & Hblock & Hother).
    split; [exact Hret |]. split; [exact Hblock |].
    intros l Hl. rewrite Hother by assumption.
    subst s1. cbn [set_heap heap]. apply lookup_insert_ne. congruence.
Qed.

(** X5.  On an array with fewer than four entries [increment] does not
    throw: it grows the array to four slots, word 3 is [NaN], read as 0 by
    the bit operators, and calling it again changes nothing more. *)
Theorem increment_short_array (seed : loc) (s : State Ctx) (a : list num) :
  heap s !! seed = Some a ->
  (length a < 4)%nat ->
  let a' := a ++ replicate (3 - length a) NaN ++ [NaN] in
  increment seed s = (Returned seed, set_heap (<[seed := a']> (heap s)) s)
  /\ length a' = 4%nat
  /\ array_load a' 3 = NaN
  /\ ToInt32 (array_load a' 3) = 0
  /\ heap (snd (increment seed (snd (increment seed s)))) !! seed = Some a'.
Proof.
  intros Hseed Hlen a'.
  assert (Hload : array_load a 3 = NaN).
  { unfold array_load. rewrite lookup_ge_None_2 by lia. reflexivity. }
  assert (Hstore : array_store a 3 NaN = a').
  { unfold array_store. destruct (Nat.ltb_spec 3 (length a)); [lia | reflexivity]. }
  assert (Hlen' : length a' = 4%nat).
  { subst a'. rewrite !length_app, length_replicate. cbn [length]. lia. }
  assert (Hload' : array_load a' 3 = NaN).
  { rewrite <- Hstore. apply array_load_store_eq. }
  assert (E : increment seed s = (Returned seed, set_heap (<[seed := a']> (heap s)) s)).
  { unfold increment, bind, load, store, modify, ret.
    rewrite Hseed, Hload. cbn [js_inc]. rewrite Hstore. reflexivity. }
  split; [exact E |]. split; [exact Hlen' |]. split; [exact Hload' |].
  split; [rewrite Hload'; reflexivity |].
  rewrite E. cbn [snd].
  unfold increment, bind, load, store, modify, ret.
  cbn [set_heap heap]. rewrite lookup_insert_eq, Hload'. cbn [js_inc snd set_heap heap].
  rewrite lookup_insert_eq. f_equal.
  unfold array_store. rewrite Hlen'. cbn [Nat.ltb Nat.leb].
  apply list_insert_id. unfold array_load in Hload'.
  destruct (a' !! 3%nat) as [x |] eqn:Hx; [congruence |].
  apply lookup_ge_None in Hx. lia.
Qed.

(** X6.  [formatSeed] rejects no input either: whatever the string, it
    returns a new array of four numbers in the signed 32-bit range, made
    from the string cut to 16 code units or filled up with zeros, and leaves
    the arrays that exist as they are. *)
Theorem formatSeed_never_rejects (seed : jsstring) (s : State Ctx) :
  exists l : loc,
    formatSeed seed s
      = (Returned l, set_heap (<[l := read4 (pad16 seed)]> (heap s)) s)
    /\ heap s !! l = None
    /\ (forall l', l' <> l -> heap (snd (formatSeed seed s)) !! l' = heap s !! l')
    /\ length (read4 (pad16 seed)) = 4%nat
    /\ Forall (fun x => exists z, x = Num z /\ - 2 ^ 31 <= z < 2 ^ 31)
              (read4 (pad16 seed))
    /\ (Forall is_byte seed -> read4 (pad16 seed) = be_words (pad16 seed)).
Proof.
  exists (fresh (dom (heap s))).
  assert (E : formatSeed seed s
    = (Returned (fresh (dom (heap s))),
       set_heap (<[fresh (dom (heap s)) := read4 (pad16 seed)]> (heap s)) s)).
  { unfold formatSeed, alloc. rewrite read4_pad16. reflexivity. }
  split; [exact E |].
  split; [apply not_elem_of_dom, is_fresh |].
  split.
  { intros l' Hl'. rewrite E. cbn [snd set_heap heap].
    apply lookup_insert_ne. congruence. }
  destruct (read4_int32 (pad16 seed)) as [Hlen Hall].
  split; [exact Hlen |]. split; [exact Hall |].
  intros Hb. apply read4_bytes; [apply length_pad16 |].
  unfold pad16. apply Forall_take, Forall_app. split; [assumption |].
  apply Forall_replicate. unfold is_byte. lia.
Qed.

(** X7.  Two blocks made by two calls of [formatSeed] are two objects:
    the references differ, the second call leaves the first block as it
    was, and incrementing the second block does not change the first. *)
Theorem formatSeed_blocks_independent (seed1 seed2 : jsstring) (s : State Ctx) :
  let r1 := formatSeed seed1 s in
  let r2 := formatSeed seed2 (snd r1) in
  exists l1 l2 : loc,
    fst r1 = Returned l1 /\ fst r2 = Returned l2
    /\ l1 <> l2
    /\ heap (snd r2) !! l1 = Some (read4 seed1)
    /\ heap (snd r2) !! l2 = Some (read4 seed2)
    /\ heap (snd (increment l2 (snd r2))) !! l1 = Some (read4 seed1).
Proof.
  intros r1 r2.
  set (l1 := fresh (dom (heap s))).
  set (s1 := set_heap (<[l1 := read4 seed1]> (heap s)) s).
  set (l2 := fresh (dom (heap s1))).
  assert (H1 : heap s1 !! l1 = Some (read4 seed1)) by apply lookup_insert_eq.
  assert (Hne : l1 <> l2).
  { intros Heq. assert (Hnone : heap s1 !! l2 = None)
      by apply not_elem_of_dom, is_fresh.
    rewrite <- Heq in Hnone. congruence. }
  exists l1, l2. subst r1 r2. unfold formatSeed, alloc. cbn [fst snd].
  fold l1. fold s1. fold l2. cbn [set_heap heap].
  split; [reflexivity |]. split; [reflexivity |]. split; [exact Hne |].
  assert (H2 : <[l2 := read4 seed2]> (heap s1) !! l1 = Some (read4 seed1)).
  { rewrite lookup_insert_ne by congruence. exact H1. }
  split; [exact H2 |]. split; [apply lookup_insert_eq |].
  destruct (increment_elsewhere l2
              (set_heap (<[l2 := read4 seed2]> (heap s1)) s1)) as [Hother _].
  rewrite (Hother l1 Hne). exact H2.
Qed.

End Counter.

(** ** Seeds lose nothing *)

Section SeedRoundTrip.

Context {Ctx : Type}.

(** X8.  On 16-byte inputs [formatSeed] loses no information: writing the
    four words of the block it builds back out, most significant byte
    first, gives the input again; so two 16-byte seeds that give equal
    blocks are equal. *)
Theorem formatSeed_round_trip (seed : jsstring) (s : State Ctx) :
  length seed = 16%nat ->
  Forall is_byte seed ->
  exists (l : loc) (a : list num),
    fst (formatSeed seed s) = Returned l
    /\ heap (snd (formatSeed seed s)) !! l = Some a
    /\ flat_map (fun w => be32 (ToInt32 w)) a = seed
    /\ (forall seed' : jsstring,
          length seed' = 16%nat -> Forall is_byte seed' ->
          read4 seed' = a -> seed' = seed).
Proof.
  intros Hlen Hb.
  exists (fresh (dom (heap s))), (be_words seed).
  unfold formatSeed, alloc. rewrite read4_bytes by assumption.
  cbn [fst snd set_heap heap].
  split; [reflexivity |]. split; [apply lookup_insert_eq |].
  split; [apply be_words_serialise; assumption |].
  intros seed' Hlen' Hb' Heq.
  rewrite read4_bytes in Heq by assumption.
  rewrite <- (be_words_serialise seed' Hlen' Hb'), Heq.
  apply be_words_serialise; assumption.
Qed.

End SeedRoundTrip.

(** ** Loading never fails *)

Section LoadReturns.

Context {Ctx : Type}.
Variable ctx_collect : jsstring -> JS Ctx unit.
Variable ctx_collectInt : num -> Z -> JS Ctx unit.



End LoadReturns.

(** ** The module wrapper *)

Section WrapperProperties.

Context {Api : Type}.

Lemma fold_keeps_defined (mods : list (Forge Api -> Forge Api)) (f : Forge Api) :
  Forall keeps_defined mods ->
  name ∈ defined_or_empty f ->
  name ∈ defined_or_empty (fold_left (fun f init => init f) mods f).
Proof.
  intros Hall. revert f. induction Hall as [| m mods Hm _ IH]; intros f Hf.
  - exact Hf.
  - cbn [fold_left]. apply IH, Hm, Hf.
Qed.

(** A call on an object that has the module marked returns at once, with
    the object as it is. *)
Lemma module_exports_defined (require : string -> Forge Api -> Forge Api)
    (initModule : Forge Api -> Forge Api) (f : Forge Api) :
  name ∈ defined_or_empty f ->
  module_exports require initModule (Some f) = (members f !! name, f).
Proof.
  intros Hin. unfold module_exports. cbn [defined_or_empty defined members].
  destruct (decide (name ∈ defined_or_empty f)) as [_ | Hno]; [| contradiction].
  destruct f as [[d |] m]; cbn [defined_or_empty defined members] in *.
  - reflexivity.
  - set_solver.
Qed.

(** After a call the module is marked, if no initialiser removes the mark,
    and the value returned is the member of that name. *)
Lemma module_exports_marks (require : string -> Forge Api -> Forge Api)
    (initModule : Forge Api -> Forge Api) (forge : option (Forge Api)) :
  (forall dep, keeps_defined (require dep)) ->
  keeps_defined initModule ->
  name ∈ defined_or_empty (snd (module_exports require initModule forge))
  /\ fst (module_exports require initModule forge)
     = members (snd (module_exports require initModule forge)) !! name.
Proof.
  intros Hreq Hinit. unfold module_exports.
  set (f0 := match forge with Some f => f | None => empty_forge end).
  cbn [defined_or_empty defined members].
  destruct (decide (name ∈ defined_or_empty f0)) as [Hin | Hno]; cbn [fst snd].
  - split; [exact Hin | reflexivity].
  - split; [| reflexivity].
    apply fold_keeps_defined.
    + apply Forall_app. split.
      * apply Forall_fmap, Forall_forall. intros dep _. apply Hreq.
      * repeat constructor. exact Hinit.
    + cbn [defined_or_empty defined]. set_solver.
Qed.

(** X10.  The exported function initialises at most once: when no
    initialiser removes the module's mark from [forge.defined], a further
    call on the object it left returns the same value and leaves the object
    as it is, whatever initialisers that call would have run. *)
Theorem module_exports_idempotent (require : string -> Forge Api -> Forge Api)
    (initModule : Forge Api -> Forge Api) (forge : option (Forge Api)) :
  (forall dep, keeps_defined (require dep)) ->
  keeps_defined initModule ->
  forall (require' : string -> Forge Api -> Forge Api)
         (initModule' : Forge Api -> Forge Api),
    module_exports require' initModule'
      (Some (snd (module_exports require initModule forge)))
    = module_exports require initModule forge.
Proof.
  intros Hreq Hinit require' initModule'.
  destruct (module_exports_marks require initModule forge Hreq Hinit) as [Hin Hval].
  rewrite (module_exports_defined require' initModule' _ Hin), <- Hval.
  destruct (module_exports require initModule forge). reflexivity.
Qed.

End WrapperProperties.

(** ** Two blocks of key stream *)

Section KeyStream.

Context {KeySchedule Ctx : Type}.
Variable _updateBlock : KeySchedule -> list num -> bool -> num * num * num * num.

(** X11.  [cipher], [increment], [cipher] on one block whose word 3 the
    doubles count exactly (from -2^53 up to 2^53 - 1), starting with the
    shared buffer empty: the first call returns the 16 bytes of the block
    update of the counter as it stands, the second those of the counter with
    word 3 raised by one, and the counter is left raised by one. *)
Theorem cipher_increment_cipher (key : KeySchedule) (seed : loc)
    (s : State Ctx) (w0 w1 w2 w3 : Z) :
  heap s !! seed = Some [Num w0; Num w1; Num w2; Num w3] ->
  - 2 ^ 53 <= w3 < 2 ^ 53 ->
  buffer_is_empty (_prng_aes_buffer s) ->
  let r1 := cipher _updateBlock key seed s in
  let r2 := increment seed (snd r1) in
  let r3 := cipher _updateBlock key seed (snd r2) in
  fst r1 = Returned (words_bytes
             (_updateBlock key [Num w0; Num w1; Num w2; Num w3] false))
  /\ fst r2 = Returned seed
  /\ fst r3 = Returned (words_bytes
                (_updateBlock key [Num w0; Num w1; Num w2; Num (w3 + 1)] false))
  /\ heap (snd r3) !! seed = Some [Num w0; Num w1; Num w2; Num (w3 + 1)]
  /\ buffer_is_empty (_prng_aes_buffer (snd r3)).
Proof.
  intros Hseed Hw Hempty r1 r2 r3.
  destruct (_updateBlock key [Num w0; Num w1; Num w2; Num w3] false)
    as [[[a0 a1] a2] a3] eqn:Ha.
  destruct (_updateBlock key [Num w0; Num w1; Num w2; Num (w3 + 1)] false)
    as [[[b0 b1] b2] b3] eqn:Hb.
  pose proof (cipher_spec _updateBlock key seed _ s a0 a1 a2 a3 Hseed Ha) as E1.
  unfold buffer_is_empty in Hempty. rewrite Hempty, drop_app_length in E1.
  subst r1 r2 r3. rewrite E1. cbn [fst snd words_bytes].
  set (s1 := set_buffer ByteBuffer.empty _).
  assert (H1 : heap s1 !! seed = Some [Num w0; Num w1; Num w2; Num w3]) by exact Hseed.
  rewrite (increment_spec_exact seed s1 w0 w1 w2 w3 H1 Hw). cbn [fst snd].
  set (s2 := set_heap _ s1).
  assert (H2 : heap s2 !! seed = Some [Num w0; Num w1; Num w2; Num (w3 + 1)])
    by apply lookup_insert_eq.
  rewrite (cipher_spec _updateBlock key seed _ s2 b0 b1 b2 b3 H2 Hb).
  cbn [fst snd set_buffer set_output heap _prng_aes_buffer].
  repeat split; try reflexivity. exact H2.
Qed.

End KeyStream.

Lemma cipher_increment_cipher_witness :
  fst (cipher xor_updateBlock demo_key 1%positive carry_state)
    = Returned [0; 0; 0; 1; 0; 0; 0; 2; 0; 0; 0; 3; 0; 0; 0; 0]
  /\ fst (cipher xor_updateBlock demo_key 1%positive
            (snd (increment 1%positive
                    (snd (cipher xor_updateBlock demo_key 1%positive carry_state)))))
     = Returned [0; 0; 0; 1; 0; 0; 0; 2; 0; 0; 0; 3; 255; 255; 255; 255].
Proof.
  destruct (cipher_increment_cipher xor_updateBlock demo_key 1%positive
              carry_state 0 0 0 (-1)) as (H1 & _ & H3 & _).
  - exact carry_state_block.
  - lia.
  - reflexivity.
  - split; [rewrite H1 | rewrite H3]; reflexivity.
Defined.

(** ** The further properties on concrete inputs *)

Lemma cipher_then_format_witness :
  exists (bytes : jsstring) (s1 : State unit) (l : loc),
    cipher xor_updateBlock demo_key 1%positive carry_state = (Returned bytes, s1)
    /\ formatSeed bytes s1
       = (Returned l,
          set_heap (<[l := int32s [Num 1; Num 2; Num 3; Num 0]]> (heap s1)) s1)
    /\ l <> 1%positive.
Proof.
  destruct (cipher_then_format xor_expandKey xor_updateBlock demo_key 1%positive
              [Num 0; Num 0; Num 0; Num (-1)] carry_state
              (Num 1) (Num 2) (Num 3) (Num 0))
    as (bytes & s1 & l & Hc & Hf & Hne & _).
  - exact carry_state_block.
  - reflexivity.
  - reflexivity.
  - exists bytes, s1, l. split; [exact Hc |]. split; [exact Hf | exact Hne].
Defined.

Lemma increments_add_witness :
  fst (increments 3 1%positive carry_state) = Returned 1%positive
  /\ heap (snd (increments 3 1%positive carry_state)) !! 1%positive
     = Some [Num 0; Num 0; Num 0; Num (-1 + Z.of_nat 3)].
Proof.
  destruct (increments_add 3 1%positive carry_state 0 0 0 (-1))
    as (Hret & Hblock & _).
  - exact carry_state_block.
  - lia.
  - simpl. lia.
  - split; [exact Hret | exact Hblock].
Defined.

Lemma counter_stops_witness :
  fst (increments 5 1%positive stopped_state) = Returned 1%positive
  /\ heap (snd (increments 5 1%positive stopped_state)) !! 1%positive
     = Some [Num 0; Num 0; Num 0; Num (2 ^ 53)].
Proof.
  destruct (counter_stops 5 1%positive stopped_state 0 0 0)
    as (Hret & Hblock & _).
  - vm_compute. reflexivity.
  - split; [exact Hret | exact Hblock].
Defined.

Lemma counter_period_witness :
  int32s <$> heap (snd (increments 0 1%positive carry_state)) !! 1%positive
  <> int32s <$> heap (snd (increments 1 1%positive carry_state)) !! 1%positive.
Proof.
  intros H.
  apply (counter_period 0 1 1%positive carry_state 0 0 0 (-1)) in H.
  - vm_compute in H. discriminate H.
  - exact carry_state_block.
  - lia.
  - simpl. lia.
  - simpl. lia.
Defined.

Lemma increment_short_array_witness :
  increment 1%positive short_state
    = (Returned 1%positive,
       set_heap (<[1%positive := [Num 5; Num 6; NaN; NaN]]> (heap short_state))
                short_state)
  /\ heap (snd (increment 1%positive (snd (increment 1%positive short_state))))
       !! 1%positive = Some [Num 5; Num 6; NaN; NaN].
Proof.
  destruct (increment_short_array 1%positive short_state [Num 5; Num 6])
    as (Heq & _ & _ & _ & Hagain).
  - vm_compute. reflexivity.
  - simpl. lia.
  - split; [exact Heq | exact Hagain].
Defined.

Lemma formatSeed_round_trip_witness :
  exists (l : loc) (a : list num),
    fst (formatSeed key16 (init_state tt)) = Returned l
    /\ heap (snd (formatSeed key16 (init_state tt))) !! l = Some a
    /\ flat_map (fun w => be32 (ToInt32 w)) a = key16.
Proof.
  destruct (formatSeed_round_trip key16 (init_state tt))
    as (l & a & Hret & Hheap & Hback & _).
  - reflexivity.
  - apply key16_bytes.
  - exists l, a. split; [exact Hret |]. split; [exact Hheap | exact Hback].
Defined.


Lemma demo_require_keeps (dep : string) : keeps_defined (demo_require dep).
Proof.
  intros f Hf. unfold demo_require. cbn [defined_or_empty defined]. set_solver.
Qed.

Lemma demo_initModule_keeps : keeps_defined demo_initModule.
Proof. intros f Hf. exact Hf. Qed.

Lemma module_exports_idempotent_witness :
  module_exports demo_require demo_initModule
    (Some (snd (module_exports demo_require demo_initModule None)))
  = module_exports demo_require demo_initModule None.
Proof.
  apply (module_exports_idempotent demo_require demo_initModule None
           demo_require_keeps demo_initModule_keeps
           demo_require demo_initModule).
Defined.
